(** * gruut: [SqlitePhonemizer.__call__] (src/gruut/phonemize.py)

    A shallow embedding of the word-to-phonemes resolver: an in-memory
    lexicon (a dict of shared role-map dicts), a sqlite table
    [word_phonemes], an external analyzer (espeak) and a chain of word
    transforms.  Python's mutable dicts are modelled by a heap of role-maps
    addressed by location, so that [self.lexicon[lookup_word] =
    self.lexicon[word]] really shares one object between two keys. *)

From stdpp Require Import base option list gmap strings.
From Stdlib Require Import ZArith Lia Ascii.

Open Scope string_scope.
Open Scope list_scope.
Open Scope nat_scope.

(** ** Data model *)

(** [PHONEMES_TYPE]: a sequence of phoneme symbols. *)
Definition PHONEMES_TYPE := list string.

(** A role as the code sees it: [None] is Python's [None] and SQL's NULL,
    the empty string is [DEFAULT_ROLE]. *)
Definition Role := option string.

Definition DEFAULT_ROLE : string := EmptyString.

(** [ROLE_TO_PHONEMES]: a Python dict, kept in insertion order. *)
Definition ROLE_TO_PHONEMES := list (Role * PHONEMES_TYPE).

(** [WORD_TRANSFORM_TYPE]: a transform or casing function. *)
Definition WORD_TRANSFORM_TYPE := string -> string.

(** Object identity of a role-map dict. *)
Definition loc := nat.

(** One row of table [word_phonemes], columns in the order of the INSERT. *)
Record Row := mkRow {
  row_id : Z;
  row_word : string;
  row_pron_order : Z;
  row_phonemes : string;
  row_role : Role
}.

(** What the resolver asks of its collaborators, in order: a SELECT (with
    the role it filters on, if any), a call of the analyzer, the execution
    of the INSERT statement, and the [print] of the [except] branch. *)
Inductive Event :=
| EvQuery (lookup_word : string) (role : Role)
| EvAnalyze (lookup_word : string)
| EvInsert (lookup_word phonemes : string) (role : Role)
| EvPrint (lookup_word : string) (pron_order : Z) (phonemes : string)
    (role : Role).

(** The mutable world of one resolver: [self.lexicon] with the dict objects
    it points to, the table behind [self.db_conn], the number of INSERTs
    attempted so far, and the trace of external calls. *)
Record State := mkState {
  lexicon : gmap string loc;
  heap : list ROLE_TO_PHONEMES;
  db : list Row;
  attempts : nat;
  log : list Event
}.

(** How the [try] block of lines 113-118 (INSERT, then commit) ends:
    both statements succeed; or one of them raises and the row is not in
    the table (a failed INSERT, a commit that rolled back); or the commit
    raises while the inserted row stays visible on the connection. *)
Inductive WriteResult := Stored | RaisedNoRow | RaisedRowKept.

(** The attributes fixed by [__init__], with the two external collaborators:
    [espeak_phonemizer w] is the result of
    [self.espeak_phonemizer.phonemize(w, keep_clause_breakers=False)]
    ([None] when it raises; its result is the string that the code binds to
    the [phonemes] column), and [write_result k] tells how the [k]-th
    INSERT/commit of the connection ends. *)
Record SqlitePhonemizer := mkPhonemizer {
  db_update_on : bool;
  word_transform_funcs : list WORD_TRANSFORM_TYPE;
  casing_func : option WORD_TRANSFORM_TYPE;
  espeak_phonemizer : string -> option string;
  write_result : nat -> WriteResult
}.

(** The exceptions that the model follows: the analyzer's, raised at line
    110 outside the [try], and the [KeyError] that the lookup of line 137
    could raise.  The runs described are those in which the SELECT itself
    succeeds and the [phonemes] column holds text; Python's
    [RecursionError] shows as an exhausted fuel (see [call]). *)
Inductive Exn := AnalyzerError | KeyError.

(** How a call ends: [return x] (with [None] for Python's [None]) or an
    exception that reaches the caller. *)
Inductive Outcome :=
| Return (phonemes : option PHONEMES_TYPE)
| Raise (e : Exn).

(** ** Python builtins used by the code *)

(** A Python [str] is kept as the string of the bytes of its UTF-8
    encoding: equality and emptiness are those of the [str]. *)

(** The whitespace characters of one byte: U+0009 to U+000D, U+001C to
    U+001F and U+0020. *)
Definition is_space (c : ascii) : bool :=
  let n := nat_of_ascii c in
  ((9 <=? n) && (n <=? 13)) || ((28 <=? n) && (n <=? 32)).

(** The number of bytes of the whitespace character that [s] starts with,
    0 when it starts with none.  Besides the characters of one byte,
    [str.isspace] holds of U+0085 and U+00A0 (two bytes, after 194) and of
    U+1680, U+2000 to U+200A, U+2028, U+2029, U+202F, U+205F and U+3000
    (three bytes). *)
Definition space_len (s : string) : nat :=
  match s with
  | EmptyString => 0
  | String c1 s1 =>
      if is_space c1 then 1
      else
        let a := nat_of_ascii c1 in
        match s1 with
        | EmptyString => 0
        | String c2 s2 =>
            let b := nat_of_ascii c2 in
            if (a =? 194) && ((b =? 133) || (b =? 160)) then 2
            else
              match s2 with
              | EmptyString => 0
              | String c3 _ =>
                  let c := nat_of_ascii c3 in
                  if (a =? 225) && (b =? 154) && (c =? 128) then 3
                  else if (a =? 226) && (b =? 128)
                          && (((128 <=? c) && (c <=? 138))
                              || (c =? 168) || (c =? 169) || (c =? 175))
                  then 3
                  else if (a =? 226) && (b =? 129) && (c =? 159) then 3
                  else if (a =? 227) && (b =? 128) && (c =? 128) then 3
                  else 0
              end
        end
  end.

(** [str.split()] without arguments: cut at runs of whitespace
    characters, no empty piece.  [cur] is the piece being read, [skip] the
    number of bytes left of the whitespace character being passed. *)
Fixpoint split_from (cur : option string) (skip : nat) (s : string)
  : list string :=
  match s with
  | EmptyString => match cur with Some w => [w] | None => [] end
  | String c s' =>
      match skip with
      | S k => split_from cur k s'
      | O =>
          match space_len s with
          | S k =>
              match cur with
              | Some w => w :: split_from None k s'
              | None => split_from None k s'
              end
          | O =>
              split_from
                (Some (default EmptyString cur ++ String c EmptyString)%string)
                0 s'
          end
      end
  end.

Definition split (s : string) : list string := split_from None 0 s.

(** [not s] for a string. *)
Definition falsy (s : string) : bool :=
  match s with EmptyString => true | _ => false end.

(** [not role] for an optional string. *)
Definition falsy_role (role : Role) : bool :=
  match role with None => true | Some r => falsy r end.

(** [d.get(k)] on an insertion-ordered dict. *)
Fixpoint dict_get (k : Role) (d : ROLE_TO_PHONEMES) : option PHONEMES_TYPE :=
  match d with
  | [] => None
  | (k', v) :: d' => if decide (k = k') then Some v else dict_get k d'
  end.

(** [k in d]. *)
Definition dict_mem (k : Role) (d : ROLE_TO_PHONEMES) : bool :=
  match dict_get k d with Some _ => true | None => false end.

(** [d[k] = v] for a key that is not in [d]: appended, so it is last in
    iteration order. *)
Definition dict_add (k : Role) (v : PHONEMES_TYPE) (d : ROLE_TO_PHONEMES)
  : ROLE_TO_PHONEMES := d ++ [(k, v)].

(** ** The sqlite table *)

(** [ORDER BY pron_order], as sqlite answers it: the table is listed in
    rowid order, and rows of equal [pron_order] come out in that order.
    [insert_row r l] puts a row [r] that precedes the rows of the sorted
    list [l] in the table before the first row whose [pron_order] is not
    less than its own. *)
Fixpoint insert_row (r : Row) (l : list Row) : list Row :=
  match l with
  | [] => [r]
  | x :: l' =>
      if (row_pron_order x <? row_pron_order r)%Z then x :: insert_row r l'
      else r :: x :: l'
  end.

Fixpoint order_by_pron_order (l : list Row) : list Row :=
  match l with
  | [] => []
  | r :: l' => insert_row r (order_by_pron_order l')
  end.

Definition columns (r : Row) : Role * string := (row_role r, row_phonemes r).

(** [SELECT role, phonemes FROM word_phonemes WHERE word = ?
    ORDER BY pron_order] *)
Definition select_word (t : list Row) (w : string) : list (Role * string) :=
  columns <$> order_by_pron_order (filter (λ r, row_word r = w) t).

(** [SELECT role, phonemes FROM word_phonemes WHERE word = ? AND role = ?
    ORDER BY pron_order]; a NULL role never equals the bound string. *)
Definition select_word_role (t : list Row) (w r : string)
  : list (Role * string) :=
  columns <$> order_by_pron_order
    (filter (λ x, row_word x = w ∧ row_role x = Some r) t).

(** The greatest INTEGER of sqlite. *)
Definition INT64_MAX : Z := 9223372036854775807%Z.

(** sqlite's [x + 1].  The numbers of the columns [id] and [pron_order]
    are 64-bit INTEGERs; an addition that leaves them gives the REAL
    9223372036854775808.0, and that REAL plus one is itself.  The number
    [INT64_MAX + 1] stands for this REAL. *)
Definition sql_succ (z : Z) : Z := Z.min (z + 1) (INT64_MAX + 1).

(** [(SELECT IFNULL(MAX(id), 0) + 1 FROM word_phonemes)] *)
Definition next_id (t : list Row) : Z :=
  sql_succ (foldr (λ r acc, Z.max (row_id r) acc)
                  (default 0%Z (row_id <$> head t)) t).

(** [(SELECT IFNULL(MAX(pron_order) + 1, 0) FROM word_phonemes
    WHERE word = ?)] *)
Definition next_pron_order (t : list Row) (w : string) : Z :=
  match filter (λ r, row_word r = w) t with
  | [] => 0%Z
  | r :: l =>
      sql_succ (foldr (λ x acc, Z.max (row_pron_order x) acc)
                      (row_pron_order r) l)
  end.

(** The row that the INSERT statement adds for the bound parameters
    [(lookup_word, lookup_word, phonemes, role)]. *)
Definition new_row (t : list Row) (lookup_word phonemes : string) (role : Role)
  : Row :=
  mkRow (next_id t) lookup_word (next_pron_order t lookup_word) phonemes role.

(** ** State updates *)

Definition set_lexicon (f : gmap string loc -> gmap string loc)
    (st : State) : State :=
  mkState (f (lexicon st)) (heap st) (db st) (attempts st) (log st).

Definition set_heap (f : list ROLE_TO_PHONEMES -> list ROLE_TO_PHONEMES)
    (st : State) : State :=
  mkState (lexicon st) (f (heap st)) (db st) (attempts st) (log st).

Definition emit (e : Event) (st : State) : State :=
  mkState (lexicon st) (heap st) (db st) (attempts st) (log st ++ [e]).

(** The dict object at a location; the locations kept in a lexicon are
    always allocated (see [closed]). *)
Definition deref (st : State) (l : loc) : ROLE_TO_PHONEMES :=
  default [] (heap st !! l).

(** ** [SqlitePhonemizer.__call__] *)

(** Lines 63-80: the probe of a role-map found in the lexicon. *)
Definition cache_probe (role_to_word : ROLE_TO_PHONEMES) (role : Role)
  : option PHONEMES_TYPE :=
  let exact :=
    match role with
    | Some r => dict_get (Some r) role_to_word
    | None => None
    end in
  match exact with
  | Some phonemes => Some phonemes
  | None =>
      match dict_get (Some DEFAULT_ROLE) role_to_word with
      | Some phonemes => Some phonemes
      | None =>
          match role_to_word with
          | (_, phonemes) :: _ => Some phonemes
          | [] => None
          end
      end
  end.

(** Lines 98-108: the query chosen by [if not role]. *)
Definition fetch_rows (st : State) (lookup_word : string) (role : Role)
  : list (Role * string) :=
  match role with
  | Some r =>
      if falsy r then select_word (db st) lookup_word
      else select_word_role (db st) lookup_word r
  | None => select_word (db st) lookup_word
  end.

Definition query_event (lookup_word : string) (role : Role) : Event :=
  EvQuery lookup_word (if falsy_role role then None else role).

(** Lines 111-121: the INSERT and commit under [try]/[except]. *)
Definition write_back (cfg : SqlitePhonemizer) (lookup_word phonemes : string)
    (role : Role) (st : State) : State :=
  let pron_order := 0%Z in
  let st := emit (EvInsert lookup_word phonemes role) st in
  let inserted := db st ++ [new_row (db st) lookup_word phonemes role] in
  match write_result cfg (attempts st) with
  | Stored =>
      mkState (lexicon st) (heap st) inserted (S (attempts st)) (log st)
  | RaisedNoRow =>
      mkState (lexicon st) (heap st) (db st) (S (attempts st))
              (log st ++ [EvPrint lookup_word pron_order phonemes role])
  | RaisedRowKept =>
      mkState (lexicon st) (heap st) inserted (S (attempts st))
              (log st ++ [EvPrint lookup_word pron_order phonemes role])
  end.

(** Lines 109-121: what happens when the query returned no row. *)
Definition analyze (cfg : SqlitePhonemizer) (lookup_word : string) (role : Role)
    (st : State) : Exn * State + State :=
  let st := emit (EvAnalyze lookup_word) st in
  match espeak_phonemizer cfg lookup_word with
  | None => inl (AnalyzerError, st)
  | Some phonemes =>
      inr (if db_update_on cfg then write_back cfg lookup_word phonemes role st
           else st)
  end.

(** Lines 125-133: the body of [for row in rows]. *)
Definition merge_row (word : string) (acc : option loc * State)
    (row : Role * string) : option loc * State :=
  let '(role_to_word, st) := acc in
  let '(l, st) :=
    match role_to_word with
    | Some l => (l, st)
    | None =>
        let l := length (heap st) in
        (l, set_lexicon (insert word l) (set_heap (λ h, h ++ [[]]) st))
    end in
  let db_role := row.1 in
  let db_phonemes := split row.2 in
  if dict_mem db_role (deref st l) then (Some l, st)
  else
    (Some l,
     set_heap (insert l (dict_add db_role db_phonemes (deref st l))) st).

Definition merge_rows (word : string) (rows : list (Role * string))
    (role_to_word : option loc) (st : State) : option loc * State :=
  foldl (merge_row word) (role_to_word, st) rows.

(** How one iteration of the loop over the transforms ends. *)
Inductive Step :=
| Skipped
| Raised (e : Exn) (st : State)
| Missed (st : State)
| Merged (st : State).

(** Lines 88-140: one iteration, up to the recursive call. *)
Definition try_candidate (cfg : SqlitePhonemizer) (word : string) (role : Role)
    (transform_func : option (string -> string)) (role_to_word : option loc)
    (st : State) : Step :=
  let lookup_word :=
    match transform_func with
    | Some f => f word
    | None => word
    end in
  if falsy lookup_word then Skipped
  else
    let rows := fetch_rows st lookup_word role in
    let st := emit (query_event lookup_word role) st in
    let analyzed :=
      match rows with
      | [] => analyze cfg lookup_word role st
      | _ => inr st
      end in
    match analyzed with
    | inl (e, st) => Raised e st
    | inr st =>
        let '(role_to_word, st) := merge_rows word rows role_to_word st in
        match role_to_word with
        | Some _ =>
            match lexicon st !! word with
            | Some l => Merged (set_lexicon (insert lookup_word l) st)
            | None => Raised KeyError st
            end
        | None => Missed st
        end
    end.

(** Lines 87-143: the loop, with the recursive call passed as [self]. *)
Fixpoint lookup_loop (cfg : SqlitePhonemizer)
    (self : string -> Role -> State -> option (Outcome * State))
    (word : string) (role : Role)
    (candidates : list (option (string -> string)))
    (role_to_word : option loc) (st : State) : option (Outcome * State) :=
  match candidates with
  | [] => Some (Return None, st)
  | transform_func :: rest =>
      match try_candidate cfg word role transform_func role_to_word st with
      | Skipped => lookup_loop cfg self word role rest role_to_word st
      | Raised e st' => Some (Raise e, st')
      | Missed st' => lookup_loop cfg self word role rest None st'
      | Merged st' => self word role st'
      end
  end.

Definition apply_casing (cfg : SqlitePhonemizer) (word : string) : string :=
  match casing_func cfg with
  | Some f => f word
  | None => word
  end.

(** [itertools.chain([None], transforms)] *)
Definition candidates (cfg : SqlitePhonemizer) (do_transforms : bool)
  : list (option (string -> string)) :=
  None :: (Some <$> (if do_transforms then word_transform_funcs cfg else [])).

(** The whole method.  [fuel] bounds the depth of the recursion at line 140;
    the result is [None] only when the fuel runs out, which is where Python
    raises [RecursionError] at its recursion limit. *)
Fixpoint call (cfg : SqlitePhonemizer) (fuel : nat) (word : string) (role : Role)
    (do_transforms : bool) (st : State) : option (Outcome * State) :=
  match fuel with
  | O => None
  | S fuel' =>
      let word := apply_casing cfg word in
      match lexicon st !! word with
      | Some l => Some (Return (cache_probe (deref st l) role), st)
      | None =>
          lookup_loop cfg (λ w r s, call cfg fuel' w r true s)
            word role (candidates cfg do_transforms) None st
      end
  end.

(** ** Vocabulary of the statements *)

(** The role-map that the loop of lines 124-133 builds from a fresh dict:
    the first row of a role wins. *)
Definition merge_step (d : ROLE_TO_PHONEMES) (row : Role * string)
  : ROLE_TO_PHONEMES :=
  if dict_mem row.1 d then d else dict_add row.1 (split row.2) d.

Definition merged_map (rows : list (Role * string)) : ROLE_TO_PHONEMES :=
  foldl merge_step [] rows.

(** The state in which line 140 makes the recursive call, when the query
    of [lookup_word] returned [rows]: a new dict object, bound to [word]
    and to [lookup_word]. *)
Definition merged_state (word lookup_word : string) (rows : list (Role * string))
    (st : State) : State :=
  mkState (<[lookup_word := length (heap st)]>
             (<[word := length (heap st)]> (lexicon st)))
          (heap st ++ [merged_map rows]) (db st) (attempts st) (log st).

(** The words passed to the analyzer, in order. *)
Fixpoint analyzed_words (l : list Event) : list string :=
  match l with
  | [] => []
  | EvAnalyze w :: l' => w :: analyzed_words l'
  | _ :: l' => analyzed_words l'
  end.

Definition analyzer_calls (l : list Event) : nat := length (analyzed_words l).

(** The words sent to the store in SELECT statements, in order. *)
Fixpoint queried_words (l : list Event) : list string :=
  match l with
  | [] => []
  | EvQuery w _ :: l' => w :: queried_words l'
  | _ :: l' => queried_words l'
  end.

Definition transformed (word : string) (transform_func : option (string -> string))
  : string :=
  match transform_func with
  | Some f => f word
  | None => word
  end.

(** The lookup words that the loop really tries for [word]: the results
    of the candidates, without the empty ones. *)
Definition tried (word : string) (cs : list (option (string -> string)))
  : list string :=
  filter (λ l, falsy l = false) (transformed word <$> cs).

Definition lookup_words (cfg : SqlitePhonemizer) (do_transforms : bool)
    (word : string) : list string :=
  tried word (candidates cfg do_transforms).

(** The choice of section 4.1, step 2, in the words of the specification:
    the requested role if present, else the default role if present, else
    the first-inserted entry. *)
Inductive Chosen (d : ROLE_TO_PHONEMES) (role : Role) (p : PHONEMES_TYPE) : Prop :=
| ChosenExact r :
    role = Some r -> dict_get (Some r) d = Some p -> Chosen d role p
| ChosenDefault :
    (∀ r, role = Some r -> dict_get (Some r) d = None) ->
    dict_get (Some DEFAULT_ROLE) d = Some p -> Chosen d role p
| ChosenFirst k rest :
    (∀ r, role = Some r -> dict_get (Some r) d = None) ->
    dict_get (Some DEFAULT_ROLE) d = None ->
    d = (k, p) :: rest -> Chosen d role p.

(** What an iteration that found no row and analyzed [lookup_word] to [ph]
    leaves behind. *)
Record missed (cfg : SqlitePhonemizer) (lookup_word : string) (role : Role)
    (ph : string) (st st' : State) : Prop := {
  missed_lexicon : lexicon st' = lexicon st;
  missed_heap : heap st' = heap st;
  missed_analyzed :
    analyzed_words (log st') = analyzed_words (log st) ++ [lookup_word];
  missed_queried :
    queried_words (log st') = queried_words (log st) ++ [lookup_word];
  missed_log : log st `prefix_of` log st';
  missed_attempts : attempts st ≤ attempts st';
  missed_db :
    db st' = db st ∨ db st' = db st ++ [new_row (db st) lookup_word ph role];
  missed_db_kept :
    db_update_on cfg = true -> write_result cfg (attempts st) ≠ RaisedNoRow ->
    db st' = db st ++ [new_row (db st) lookup_word ph role];
  missed_db_lost :
    db_update_on cfg = true -> write_result cfg (attempts st) = RaisedNoRow ->
    db st' = db st;
  missed_db_off : db_update_on cfg = false -> db st' = db st
}.

(** Every location kept in the lexicon is allocated. *)
Definition closed (st : State) : Prop :=
  ∀ w l, lexicon st !! w = Some l -> l < length (heap st).

(** [st'] is a later state of [st]: nothing bound was unbound, no dict
    object changed, table and trace only grew. *)
Definition extends (st st' : State) : Prop :=
  (∀ w, is_Some (lexicon st !! w) -> is_Some (lexicon st' !! w))
  ∧ heap st `prefix_of` heap st'
  ∧ db st `prefix_of` db st'
  ∧ log st `prefix_of` log st'
  ∧ attempts st ≤ attempts st'.

(** States of a run with the empty role and of a run with no role: they
    differ only where the first inserted rows with the empty role and the
    second rows with a NULL role. *)
Definition rel_rows (r1 r2 : list (Role * string)) : Prop :=
  r1 = r2 ∨ ∃ s, r1 = [(Some DEFAULT_ROLE, s)] ∧ r2 = [(None, s)].

Definition rel_map (d1 d2 : ROLE_TO_PHONEMES) : Prop :=
  d1 = d2 ∨ ∃ p, d1 = [(Some DEFAULT_ROLE, p)] ∧ d2 = [(None, p)].

Definition rel_state (st1 st2 : State) : Prop :=
  lexicon st1 = lexicon st2
  ∧ Forall2 rel_map (heap st1) (heap st2)
  ∧ (∀ w, rel_rows (select_word (db st1) w) (select_word (db st2) w))
  ∧ attempts st1 = attempts st2.

Definition rel_result (r1 r2 : option (Outcome * State)) : Prop :=
  match r1, r2 with
  | None, None => True
  | Some (o1, s1), Some (o2, s2) => o1 = o2 ∧ rel_state s1 s2
  | _, _ => False
  end.

(** ** Concrete resolvers and states *)

Definition lower_char (c : ascii) : ascii :=
  let n := nat_of_ascii c in
  if (65 <=? n) && (n <=? 90) then ascii_of_nat (n + 32) else c.

Fixpoint lower (s : string) : string :=
  match s with
  | EmptyString => EmptyString
  | String c s' => String (lower_char c) (lower s')
  end.

(** An analyzer that only knows how to pronounce "run". *)
Definition espeak_run (w : string) : option string :=
  if decide (w = "run") then Some "r V n" else Some "?".

Definition no_state : State := mkState ∅ [] [] 0 [].

(** The resolver of the example of section 8: lower-casing, write-back on,
    no transforms, a store that accepts every INSERT. *)
Definition run_cfg : SqlitePhonemizer :=
  mkPhonemizer true [] (Some lower) espeak_run (λ _, Stored).


(** The same with write-back off. *)
Definition readonly_cfg : SqlitePhonemizer :=
  mkPhonemizer false [] (Some lower) espeak_run (λ _, Stored).

(** [str.swapcase] on ASCII letters: a casing function that is not
    idempotent. *)
Definition swap_char (c : ascii) : ascii :=
  let n := nat_of_ascii c in
  if (65 <=? n) && (n <=? 90) then ascii_of_nat (n + 32)
  else if (97 <=? n) && (n <=? 122) then ascii_of_nat (n - 32)
  else c.

Fixpoint swapcase (s : string) : string :=
  match s with
  | EmptyString => EmptyString
  | String c s' => String (swap_char c) (swapcase s')
  end.

Definition swap_cfg : SqlitePhonemizer :=
  mkPhonemizer true [] (Some swapcase) espeak_run (λ _, Stored).

(** The store holds the swapped spelling of "Run". *)
Definition swap_state : State :=
  mkState ∅ [] [mkRow 1 "rUN" 0 "r V n" (Some "noun")] 0 [].

(** A transform that maps every word to "run". *)
Definition stem_cfg : SqlitePhonemizer :=
  mkPhonemizer true [λ _, "run"] None espeak_run (λ _, Stored).

(** "run" is cached with its default pronunciation; the store holds a row
    for its verb role. *)
Definition stem_state : State :=
  mkState {[ "run" := 0 ]} [[(Some DEFAULT_ROLE, ["r"; "V"; "n"])]]
          [mkRow 1 "run" 0 "r A n" (Some "verb")] 0 [].


(** No casing, no transforms, write-back on. *)
Definition plain_cfg : SqlitePhonemizer :=
  mkPhonemizer true [] None espeak_run (λ _, Stored).

(** The store knows "run" as a noun only. *)
Definition noun_state : State :=
  mkState ∅ [] [mkRow 1 "run" 0 "x y" (Some "noun")] 0 [].

(** A cached word with two roles and no default, and a cached word with an
    empty role-map. *)
Definition cached_state : State :=
  mkState {[ "run" := 0; "zzz" := 1 ]}
          [[(Some "verb", ["r"; "V"; "n"]); (Some "noun", ["r"; "A"; "n"])]; []]
          [] 0 [].

(** ** Vocabulary of the further properties *)

(** A symbol as [str.split()] yields it: not empty, and without a
    whitespace character of one byte. *)
Fixpoint no_space (s : string) : bool :=
  match s with
  | EmptyString => true
  | String c s' => negb (is_space c) && no_space s'
  end.

Definition symbol_ok (s : string) : Prop :=
  s ≠ EmptyString ∧ no_space s = true.

(** The phonemes column of the first row of a role in a query result. *)
Definition first_of_role (k : Role) (rows : list (Role * string))
  : option string :=
  snd <$> head (filter (λ row, row.1 = k) rows).

(** A row as lines 110-117 write it during a call with [role]: a non-empty
    lookup word, the analyzer's string for it, and the role of the call. *)
Definition analysis_row (cfg : SqlitePhonemizer) (role : Role) (r : Row) : Prop :=
  falsy (row_word r) = false
  ∧ espeak_phonemizer cfg (row_word r) = Some (row_phonemes r)
  ∧ row_role r = role.

(** The key of the table that section 3 of the specification names. *)
Definition word_order (r : Row) : string * Z := (row_word r, row_pron_order r).

(** Every phoneme sequence cached in a role-map is made of such symbols. *)
Definition heap_ok (st : State) : Prop :=
  Forall (Forall (λ e : Role * PHONEMES_TYPE, Forall symbol_ok e.2)) (heap st).

(** An analyzer that raises for every word. *)
Definition mute_cfg : SqlitePhonemizer :=
  mkPhonemizer true [] None (λ _, None) (λ _, Stored).

(** Two rows for "run", the second inserted with the lower [pron_order]. *)
Definition two_rows_state : State :=
  mkState ∅ []
          [mkRow 1 "run" 5 "r A n" (Some "noun");
           mkRow 2 "run" 2 "r V n" (Some "verb")] 0 [].

(** U+00A0, the no-break space, in UTF-8. *)
Definition nbsp : string :=
  String (ascii_of_nat 194) (String (ascii_of_nat 160) EmptyString).

(** A stored pronunciation whose first two symbols are parted by a
    no-break space. *)
Definition nbsp_state : State :=
  mkState ∅ [] [mkRow 1 "run" 0 ("r" ++ nbsp ++ "V n")%string None] 0 [].

(** Two rows for "run" with the same [pron_order]. *)
Definition tie_state : State :=
  mkState ∅ []
          [mkRow 1 "run" 0 "a" (Some "noun");
           mkRow 2 "run" 0 "b" (Some "verb")] 0 [].

(** A row for "run" whose [pron_order] is the greatest INTEGER. *)
Definition last_order_state : State :=
  mkState ∅ [] [mkRow 1 "run" INT64_MAX "x y" (Some "noun")] 0 [].

(** A transform that gives the word back. *)
Definition echo_cfg : SqlitePhonemizer :=
  mkPhonemizer false [λ w, w] None espeak_run (λ _, Stored).

(** ** The store: sorting and selecting *)

Lemma insert_row_length r l : length (insert_row r l) = S (length l).
Proof.
  induction l as [|x l IH]; simpl; [done|].
  destruct (_ <? _)%Z; simpl; [|done]. by rewrite IH.
Qed.

Lemma order_by_pron_order_length l : length (order_by_pron_order l) = length l.
Proof.
  induction l as [|r l IH]; simpl; [done|].
  by rewrite insert_row_length, IH.
Qed.

Lemma insert_row_Forall (P : Row -> Prop) r l :
  P r -> Forall P l -> Forall P (insert_row r l).
Proof.
  intros Hr. induction 1 as [|x l Hx Hl IH]; simpl.
  - by constructor.
  - destruct (_ <? _)%Z; repeat constructor; done.
Qed.

Lemma order_by_pron_order_Forall (P : Row -> Prop) l :
  Forall P l -> Forall P (order_by_pron_order l).
Proof.
  induction 1; simpl; [constructor|]. by apply insert_row_Forall.
Qed.

Lemma order_by_pron_order_nil l : order_by_pron_order l = [] -> l = [].
Proof.
  intros H. apply nil_length_inv.
  by rewrite <- order_by_pron_order_length, H.
Qed.

(** A SELECT is empty exactly when no row passes its WHERE clause. *)
Lemma select_word_nil t w :
  select_word t w = [] <-> filter (λ r, row_word r = w) t = [].
Proof.
  unfold select_word. split.
  - intros H. apply fmap_nil_inv in H. by apply order_by_pron_order_nil.
  - intros ->. done.
Qed.

Lemma select_word_role_nil t w r :
  select_word_role t w r = []
  <-> filter (λ x, row_word x = w ∧ row_role x = Some r) t = [].
Proof.
  unfold select_word_role. split.
  - intros H. apply fmap_nil_inv in H. by apply order_by_pron_order_nil.
  - intros ->. done.
Qed.

(** The rows of another word do not show in a SELECT. *)
Lemma select_word_app_other t t' w :
  Forall (λ r, row_word r ≠ w) t' ->
  select_word (t ++ t') w = select_word t w.
Proof.
  intros H. unfold select_word. rewrite filter_app.
  replace (filter (λ r, row_word r = w) t') with (@nil Row);
    [by rewrite app_nil_r|].
  symmetry. induction H as [|x l Hx Hl IH]; [done|].
  rewrite filter_cons. destruct (decide _); [done|apply IH].
Qed.

Lemma select_word_role_app_other t t' w r :
  Forall (λ x, row_word x ≠ w) t' ->
  select_word_role (t ++ t') w r = select_word_role t w r.
Proof.
  intros H. unfold select_word_role. rewrite filter_app.
  replace (filter (λ x, row_word x = w ∧ row_role x = Some r) t') with (@nil Row);
    [by rewrite app_nil_r|].
  symmetry. induction H as [|x l Hx Hl IH]; [done|].
  rewrite filter_cons. destruct (decide _) as [[? ?]|]; [done|apply IH].
Qed.

(** Every row that a SELECT returns is a row of the table for that word. *)
Lemma select_word_Forall (P : Role * string -> Prop) t w :
  Forall (λ r, row_word r = w -> P (columns r)) t ->
  Forall P (select_word t w).
Proof.
  intros H. unfold select_word. apply Forall_fmap.
  apply order_by_pron_order_Forall.
  induction H as [|x l Hx Hl IH]; [constructor|].
  rewrite filter_cons. destruct (decide _); [constructor; auto|done].
Qed.

Lemma select_word_role_Forall (P : Role * string -> Prop) t w r :
  Forall (λ x, row_word x = w -> row_role x = Some r -> P (columns x)) t ->
  Forall P (select_word_role t w r).
Proof.
  intros H. unfold select_word_role. apply Forall_fmap.
  apply order_by_pron_order_Forall.
  induction H as [|x l Hx Hl IH]; [constructor|].
  rewrite filter_cons. destruct (decide _) as [[? ?]|]; [constructor; auto|done].
Qed.

(** ** Dicts and the cache probe *)

Lemma dict_get_app_None k d d' :
  dict_get k d = None -> dict_get k (d ++ d') = dict_get k d'.
Proof.
  induction d as [|[k' v] d IH]; simpl; [done|].
  destruct (decide (k = k')); [done|apply IH].
Qed.

Lemma merge_step_nonempty d row : d ≠ [] -> merge_step d row ≠ [].
Proof.
  unfold merge_step, dict_add. destruct (dict_mem _ _); [done|].
  intros Hd. by destruct d.
Qed.

Lemma foldl_merge_step_nonempty rows d :
  d ≠ [] -> foldl merge_step d rows ≠ [].
Proof.
  revert d. induction rows as [|row rows IH]; simpl; [done|].
  intros d Hd. by apply IH, merge_step_nonempty.
Qed.

(** Merging at least one row gives a non-empty role-map. *)
Lemma merged_map_nonempty row rows : merged_map (row :: rows) ≠ [].
Proof.
  unfold merged_map. simpl. apply foldl_merge_step_nonempty.
  unfold merge_step. simpl. done.
Qed.

Lemma merged_map_const role ph rows :
  rows ≠ [] -> Forall (λ row, row = (role, ph)) rows ->
  merged_map rows = [(role, split ph)].
Proof.
  intros Hne Hall. destruct Hall as [|row rows -> Hall]; [done|].
  clear Hne. unfold merged_map. simpl. unfold merge_step at 2. simpl.
  induction Hall as [|row rows -> Hall IH]; simpl; [done|].
  unfold merge_step at 2, dict_mem, dict_add. simpl.
  destruct (decide (role = role)); [apply IH|done].
Qed.
(** A non-empty role-map always yields a pronunciation. *)
Lemma cache_probe_nonempty d role : d ≠ [] -> is_Some (cache_probe d role).
Proof.
  intros Hd. unfold cache_probe.
  destruct (match role with Some r => _ | None => _ end); [eauto|].
  destruct (dict_get _ d); [eauto|].
  destruct d as [|[k p] d]; [done|eauto].
Qed.

Lemma cache_probe_empty role : cache_probe [] role = None.
Proof. by destruct role. Qed.

(** A role-map with the single entry of the requested role. *)
Lemma cache_probe_single role p : cache_probe [(role, p)] role = Some p.
Proof.
  unfold cache_probe. destruct role as [r|]; simpl.
  - case_decide; [done|congruence].
  - done.
Qed.

(** In the probe, asking for the empty role is asking for no role. *)
Lemma cache_probe_default d : cache_probe d (Some DEFAULT_ROLE) = cache_probe d None.
Proof. unfold cache_probe. by destruct (dict_get _ d). Qed.

Lemma cache_probe_Chosen d role p :
  cache_probe d role = Some p -> Chosen d role p.
Proof.
  unfold cache_probe. intros H.
  destruct role as [r|].
  - destruct (dict_get (Some r) d) as [q|] eqn:Hr.
    + simplify_eq. by eapply ChosenExact.
    + destruct (dict_get (Some DEFAULT_ROLE) d) as [q|] eqn:Hd.
      * simplify_eq. apply ChosenDefault; [|done]. by intros ? [= <-].
      * destruct d as [|[k q] d]; [done|]. simplify_eq.
        eapply ChosenFirst; [|done..]. by intros ? [= <-].
  - destruct (dict_get (Some DEFAULT_ROLE) d) as [q|] eqn:Hd.
    + simplify_eq. apply ChosenDefault; done.
    + destruct d as [|[k q] d]; [done|]. simplify_eq.
      eapply ChosenFirst; done.
Qed.

(** ** The loop over the rows *)

Lemma set_heap_insert_id st l d :
  heap st !! l = Some d -> set_heap (insert l d) st = st.
Proof.
  intros H. destruct st as [lx h t a g]. unfold set_heap. simpl in *.
  by rewrite list_insert_id.
Qed.

Lemma deref_lookup st l d : heap st !! l = Some d -> deref st l = d.
Proof. intros H. exact (f_equal (default []) H). Qed.

(** With a dict object already at hand, the rows are merged into it. *)
Lemma merge_rows_Some word rows st l d :
  heap st !! l = Some d ->
  merge_rows word rows (Some l) st
  = (Some l, set_heap (insert l (foldl merge_step d rows)) st).
Proof.
  unfold merge_rows. revert st d.
  induction rows as [|row rows IH]; intros st d Hl; simpl.
  - by rewrite set_heap_insert_id.
  - rewrite (deref_lookup _ _ _ Hl).
    unfold merge_step at 2.
    destruct (dict_mem row.1 d) eqn:Hmem.
    + by apply IH.
    + rewrite (IH _ (dict_add row.1 (split row.2) d)).
      * destruct st as [lx h t a g]. unfold set_heap. simpl.
        by rewrite list_insert_insert_eq.
      * simpl. apply list_lookup_insert_eq. by eapply lookup_lt_Some.
Qed.

Lemma insert_snoc {A} (h : list A) (x y : A) :
  <[length h := y]> (h ++ [x]) = h ++ [y].
Proof. induction h as [|z h IH]; simpl; [done|]. by rewrite IH. Qed.

Lemma lookup_snoc {A} (h : list A) (x : A) : (h ++ [x]) !! length h = Some x.
Proof. by apply list_lookup_middle. Qed.

(** Without one, the first row creates it and binds it to [word]. *)
Lemma merge_rows_None word row rows st :
  merge_rows word (row :: rows) None st
  = (Some (length (heap st)),
     mkState (<[word := length (heap st)]> (lexicon st))
             (heap st ++ [merged_map (row :: rows)])
             (db st) (attempts st) (log st)).
Proof.
  unfold merge_rows. simpl.
  unfold deref, set_lexicon, set_heap. simpl.
  rewrite lookup_snoc. simpl. rewrite insert_snoc.
  pose proof (merge_rows_Some word rows) as H. unfold merge_rows in H.
  erewrite H; [|apply lookup_snoc].
  unfold set_heap. simpl. by rewrite insert_snoc.
Qed.

(** ** One iteration of the loop over the transforms *)

Lemma try_candidate_skip cfg word role tf rtw st :
  falsy (transformed word tf) = true ->
  try_candidate cfg word role tf rtw st = Skipped.
Proof. unfold try_candidate, transformed. by intros ->. Qed.

(** The query returned rows: they are merged into a new dict object and
    the recursive call is next. *)
Lemma try_candidate_rows cfg word role tf st row rows :
  falsy (transformed word tf) = false ->
  fetch_rows st (transformed word tf) role = row :: rows ->
  try_candidate cfg word role tf None st
  = Merged (merged_state word (transformed word tf) (row :: rows)
              (emit (query_event (transformed word tf) role) st)).
Proof.
  unfold try_candidate, transformed. intros -> ->.
  rewrite merge_rows_None. simpl. by rewrite lookup_insert_eq.
Qed.

(** The query returned nothing: the analyzer runs, and the loop goes on. *)
Lemma try_candidate_no_rows cfg word role tf st :
  falsy (transformed word tf) = false ->
  fetch_rows st (transformed word tf) role = [] ->
  try_candidate cfg word role tf None st
  = match analyze cfg (transformed word tf) role
            (emit (query_event (transformed word tf) role) st) with
    | inl (e, st') => Raised e st'
    | inr st' => Missed st'
    end.
Proof.
  unfold try_candidate, transformed. intros -> ->.
  destruct (analyze _ _ _ _) as [[e st']|st']; done.
Qed.

Lemma analyzed_words_app l l' :
  analyzed_words (l ++ l') = analyzed_words l ++ analyzed_words l'.
Proof.
  induction l as [|e l IH]; simpl; [done|].
  destruct e; simpl; by rewrite ?IH.
Qed.

Lemma queried_words_app l l' :
  queried_words (l ++ l') = queried_words l ++ queried_words l'.
Proof.
  induction l as [|e l IH]; simpl; [done|].
  destruct e; simpl; by rewrite ?IH.
Qed.

Lemma try_candidate_inv cfg word role tf st :
  let lookup_word := transformed word tf in
  match try_candidate cfg word role tf None st with
  | Skipped => falsy lookup_word = true
  | Raised e st' =>
      falsy lookup_word = false ∧ fetch_rows st lookup_word role = []
      ∧ espeak_phonemizer cfg lookup_word = None ∧ e = AnalyzerError
      ∧ st' = emit (EvAnalyze lookup_word) (emit (query_event lookup_word role) st)
  | Missed st' =>
      falsy lookup_word = false ∧ fetch_rows st lookup_word role = []
      ∧ ∃ ph, espeak_phonemizer cfg lookup_word = Some ph ∧ missed cfg lookup_word role ph st st'
  | Merged st' =>
      falsy lookup_word = false
      ∧ ∃ row rows, fetch_rows st lookup_word role = row :: rows
        ∧ st' = merged_state word lookup_word (row :: rows)
                  (emit (query_event lookup_word role) st)
  end.
Proof.
  intros lookup_word.
  destruct (falsy lookup_word) eqn:Hf.
  { by rewrite try_candidate_skip. }
  destruct (fetch_rows st lookup_word role) as [|row rows] eqn:Hrows.
  2:{ subst lookup_word. erewrite try_candidate_rows by done. eauto. }
  subst lookup_word. rewrite try_candidate_no_rows by done.
  unfold analyze. destruct (espeak_phonemizer cfg _) as [ph|] eqn:Hph; [|done].
  do 2 (split; [done|]). exists ph. split; [done|].
  destruct (db_update_on cfg) eqn:Hon.
  - unfold write_back. simpl.
    destruct (write_result cfg (attempts st)) eqn:Hw; simpl;
      (split; simpl; rewrite ?analyzed_words_app, ?queried_words_app; simpl;
       rewrite ?app_nil_r;
       try done; try (by intros; congruence); try lia; eauto;
       try (rewrite <- !app_assoc; by apply prefix_app_r)).
  - split; simpl; rewrite ?analyzed_words_app, ?queried_words_app; simpl;
      rewrite ?app_nil_r;
      try done; try (by intros; congruence); try lia; eauto;
      try (rewrite <- !app_assoc; by apply prefix_app_r).
Qed.

(** ** The two ways through [__call__] *)

Lemma call_hit cfg n W role dt st l :
  lexicon st !! apply_casing cfg W = Some l ->
  call cfg (S n) W role dt st = Some (Return (cache_probe (deref st l) role), st).
Proof. simpl. by intros ->. Qed.

Lemma call_miss cfg n W role dt st :
  lexicon st !! apply_casing cfg W = None ->
  call cfg (S n) W role dt st
  = lookup_loop cfg (λ w r s, call cfg n w r true s)
      (apply_casing cfg W) role (candidates cfg dt) None st.
Proof. simpl. by intros ->. Qed.

Lemma merged_state_word word lookup_word rows st :
  lexicon (merged_state word lookup_word rows st) !! word = Some (length (heap st)).
Proof.
  unfold merged_state. simpl.
  destruct (decide (lookup_word = word)) as [->|Hne].
  - by rewrite lookup_insert_eq.
  - by rewrite lookup_insert_ne, lookup_insert_eq.
Qed.

Lemma merged_state_lookup_word word lookup_word rows st :
  lexicon (merged_state word lookup_word rows st) !! lookup_word
  = Some (length (heap st)).
Proof. unfold merged_state. simpl. by rewrite lookup_insert_eq. Qed.

Lemma merged_state_heap word lookup_word rows st :
  heap (merged_state word lookup_word rows st) !! length (heap st)
  = Some (merged_map rows).
Proof. unfold merged_state. simpl. apply lookup_snoc. Qed.

(** The recursive call of line 140, for a word that the casing function
    leaves alone: the probe answers, and the state stays as it is. *)
Lemma call_merged_state cfg n word lookup_word role dt rows st :
  apply_casing cfg word = word ->
  call cfg (S n) word role dt (merged_state word lookup_word rows st)
  = Some (Return (cache_probe (merged_map rows) role),
          merged_state word lookup_word rows st).
Proof.
  intros Hc. erewrite call_hit; [|rewrite Hc; apply merged_state_word].
  by rewrite (deref_lookup _ _ _ (merged_state_heap _ _ _ _)).
Qed.

(** More fuel does not change a result. *)
Lemma lookup_loop_mono cfg (self1 self2 : string -> Role -> State -> option (Outcome * State))
    word role cs rtw st r :
  (∀ w ro s r', self1 w ro s = Some r' -> self2 w ro s = Some r') ->
  lookup_loop cfg self1 word role cs rtw st = Some r ->
  lookup_loop cfg self2 word role cs rtw st = Some r.
Proof.
  intros Hself. revert rtw st.
  induction cs as [|tf cs IH]; intros rtw st; simpl; [done|].
  destruct (try_candidate _ _ _ _ _ _); eauto.
Qed.

Lemma call_mono cfg n m W role dt st r :
  n ≤ m -> call cfg n W role dt st = Some r -> call cfg m W role dt st = Some r.
Proof.
  revert m W role dt st r.
  induction n as [|n IH]; intros m W role dt st r Hle; [done|].
  destruct m as [|m]; [lia|].
  destruct (lexicon st !! apply_casing cfg W) as [l|] eqn:Hl.
  - by rewrite !(call_hit _ _ _ _ _ _ l).
  - rewrite !call_miss by done.
    apply lookup_loop_mono. intros w ro s r'. apply IH. lia.
Qed.

(** ** Later states *)

Lemma extends_refl st : extends st st.
Proof. by repeat split. Qed.

Lemma extends_trans st1 st2 st3 :
  extends st1 st2 -> extends st2 st3 -> extends st1 st3.
Proof.
  intros (Hl1 & Hh1 & Hd1 & Hg1 & Ha1) (Hl2 & Hh2 & Hd2 & Hg2 & Ha2).
  repeat split; [auto|by etrans..|lia].
Qed.

Lemma extends_emit e st : extends st (emit e st).
Proof. repeat split; simpl; [done..|by apply prefix_app_r|done]. Qed.

Lemma extends_merged_state word lookup_word rows st :
  extends st (merged_state word lookup_word rows st).
Proof.
  repeat split; simpl; [|by apply prefix_app_r|done..].
  intros w Hw. rewrite !lookup_insert_is_Some. destruct (decide (lookup_word = w)); [by left|].
  right. split; [done|]. destruct (decide (word = w)); [by left|by right].
Qed.

Lemma extends_missed cfg lookup_word role ph st st' :
  missed cfg lookup_word role ph st st' -> extends st st'.
Proof.
  intros [Hl Hh _ _ Hg Ha Hd _ _ _]. repeat split; [by rewrite Hl|by rewrite Hh| |done..].
  destruct Hd as [-> | ->]; [done|by apply prefix_app_r].
Qed.

Lemma try_candidate_extends cfg word role tf st :
  match try_candidate cfg word role tf None st with
  | Skipped => True
  | Raised _ st' | Missed st' | Merged st' => extends st st'
  end.
Proof.
  pose proof (try_candidate_inv cfg word role tf st) as H. simpl in H.
  destruct (try_candidate _ _ _ _ _ _) as [|e st'|st'|st']; [done|..].
  - destruct H as (_ & _ & _ & _ & ->).
    eapply extends_trans; apply extends_emit.
  - destruct H as (_ & _ & ph & _ & Hm). by eapply extends_missed.
  - destruct H as (_ & row & rows & _ & ->).
    eapply extends_trans; [apply extends_emit|apply extends_merged_state].
Qed.

Lemma lookup_loop_extends cfg (self : string -> Role -> State -> option (Outcome * State))
    word role cs st o st' :
  (∀ s o' s', self word role s = Some (o', s') -> extends s s') ->
  lookup_loop cfg self word role cs None st = Some (o, st') ->
  extends st st'.
Proof.
  intros Hself. revert st.
  induction cs as [|tf cs IH]; intros st; simpl.
  - intros [= <- <-]. apply extends_refl.
  - pose proof (try_candidate_extends cfg word role tf st) as H.
    destruct (try_candidate _ _ _ _ _ _) as [|e s|s|s].
    + apply IH.
    + intros [= <- <-]. done.
    + intros Hl. eapply extends_trans; [done|by apply IH].
    + intros Hl. eapply extends_trans; [done|by eapply Hself].
Qed.

(** No call unbinds a word or changes an existing dict object, and the
    table and the trace only grow. *)
Lemma call_extends cfg n W role dt st o st' :
  call cfg n W role dt st = Some (o, st') -> extends st st'.
Proof.
  revert W role dt st o st'.
  induction n as [|n IH]; intros W role dt st o st'; [done|].
  destruct (lexicon st !! apply_casing cfg W) as [l|] eqn:Hl.
  - rewrite (call_hit _ _ _ _ _ _ l) by done.
    intros [= <- <-]. apply extends_refl.
  - rewrite call_miss by done.
    apply lookup_loop_extends. intros s o' s'. apply IH.
Qed.

(** ** Allocation and termination *)

Lemma closed_merged_state word lookup_word rows st :
  closed st -> closed (merged_state word lookup_word rows st).
Proof.
  intros Hcl w l. unfold merged_state. simpl. rewrite length_app. simpl.
  rewrite !lookup_insert. repeat case_decide.
  - intros [= <-]. lia.
  - intros [= <-]. lia.
  - intros Hl. apply Hcl in Hl. lia.
Qed.

Lemma try_candidate_closed cfg word role tf st :
  closed st ->
  match try_candidate cfg word role tf None st with
  | Skipped => True
  | Raised _ st' | Missed st' | Merged st' => closed st'
  end.
Proof.
  intros Hcl.
  pose proof (try_candidate_inv cfg word role tf st) as H. simpl in H.
  destruct (try_candidate _ _ _ _ _ _) as [|e st'|st'|st']; [done|..].
  - by destruct H as (_ & _ & _ & _ & ->).
  - destruct H as (_ & _ & ph & _ & Hm). intros w l.
    rewrite (missed_lexicon _ _ _ _ _ _ Hm), (missed_heap _ _ _ _ _ _ Hm).
    apply Hcl.
  - destruct H as (_ & row & rows & _ & ->). by apply closed_merged_state.
Qed.

Lemma lookup_loop_closed cfg (self : string -> Role -> State -> option (Outcome * State))
    word role cs st o st' :
  (∀ s o' s', closed s -> self word role s = Some (o', s') -> closed s') ->
  closed st ->
  lookup_loop cfg self word role cs None st = Some (o, st') ->
  closed st'.
Proof.
  intros Hself. revert st.
  induction cs as [|tf cs IH]; intros st Hcl; simpl.
  - by intros [= <- <-].
  - pose proof (try_candidate_closed cfg word role tf st Hcl) as H.
    destruct (try_candidate _ _ _ _ _ _) as [|e s|s|s].
    + by apply IH.
    + by intros [= <- <-].
    + by apply IH.
    + by apply Hself.
Qed.

(** Every call keeps the lexicon closed: the locations it binds are
    allocated, so [deref] never reads outside the heap. *)
Lemma call_closed cfg n W role dt st o st' :
  closed st -> call cfg n W role dt st = Some (o, st') -> closed st'.
Proof.
  revert W role dt st o st'.
  induction n as [|n IH]; intros W role dt st o st' Hcl; [done|].
  destruct (lexicon st !! apply_casing cfg W) as [l|] eqn:Hl.
  - rewrite (call_hit _ _ _ _ _ _ l) by done. by intros [= <- <-].
  - rewrite call_miss by done.
    apply lookup_loop_closed; [|done]. intros s o' s'. apply IH.
Qed.

Lemma lookup_loop_returns cfg (self : string -> Role -> State -> option (Outcome * State))
    word role cs st :
  (∀ l rows s, is_Some (self word role (merged_state word l rows s))) ->
  is_Some (lookup_loop cfg self word role cs None st).
Proof.
  intros Hself. revert st.
  induction cs as [|tf cs IH]; intros st; simpl; [eauto|].
  pose proof (try_candidate_inv cfg word role tf st) as H. simpl in H.
  destruct (try_candidate _ _ _ _ _ _) as [|e s|s|s]; [done|eauto|done|].
  destruct H as (_ & row & rows & _ & ->). apply Hself.
Qed.

(** With a casing function that is idempotent on the word, the method
    returns (or raises) within two nested activations. *)
Lemma call_returns cfg n W role dt st :
  apply_casing cfg (apply_casing cfg W) = apply_casing cfg W ->
  is_Some (call cfg (S (S n)) W role dt st).
Proof.
  intros Hc.
  destruct (lexicon st !! apply_casing cfg W) as [l|] eqn:Hl.
  - rewrite (call_hit _ _ _ _ _ _ l) by done. eauto.
  - rewrite call_miss by done. apply lookup_loop_returns.
    intros l rows s. rewrite call_merged_state by done. eauto.
Qed.

(** ** The cache probe (claims C7, C8, C9) *)

(** C7: for a word whose role-map in the lexicon is not empty, the call
    returns the entry of the requested role if there is one, else the entry
    of the default role if there is one, else the first-inserted entry; the
    state is left as it was, so every repetition of the call returns the
    same entry. *)
Theorem cached_role_choice cfg W role dt st l d :
  lexicon st !! apply_casing cfg W = Some l ->
  heap st !! l = Some d ->
  d ≠ [] ->
  ∃ p, Chosen d role p
       ∧ ∀ n, call cfg (S n) W role dt st = Some (Return (Some p), st).
Proof.
  intros Hl Hd Hne.
  destruct (cache_probe_nonempty d role Hne) as [p Hp].
  exists p. split; [by apply cache_probe_Chosen|].
  intros n. rewrite (call_hit _ _ _ _ _ _ l) by done.
  by rewrite (deref_lookup _ _ _ Hd), Hp.
Qed.

Lemma cached_role_choice_witness :
  ∃ p, Chosen [(Some "verb", ["r"; "V"; "n"]); (Some "noun", ["r"; "A"; "n"])] None p
       ∧ ∀ n, call plain_cfg (S n) "run" None true cached_state
              = Some (Return (Some p), cached_state).
Proof.
  apply (cached_role_choice plain_cfg "run" None true cached_state 0).
  - reflexivity.
  - reflexivity.
  - discriminate.
Defined.

(** C8: for a word that the lexicon holds with a non-empty role-map, the
    call returns a phoneme sequence and ends in the state it started from:
    no query, no analyzer call and no write were made. *)
Theorem cached_word_untouched_collaborators cfg n W role dt st l d :
  lexicon st !! apply_casing cfg W = Some l ->
  heap st !! l = Some d ->
  d ≠ [] ->
  ∃ p st', call cfg (S n) W role dt st = Some (Return (Some p), st')
           ∧ log st' = log st ∧ db st' = db st ∧ attempts st' = attempts st
           ∧ st' = st.
Proof.
  intros Hl Hd Hne.
  destruct (cache_probe_nonempty d role Hne) as [p Hp].
  exists p, st. rewrite (call_hit _ _ _ _ _ _ l) by done.
  by rewrite (deref_lookup _ _ _ Hd), Hp.
Qed.

Lemma cached_word_untouched_collaborators_witness :
  ∃ p st', call run_cfg 1 "RUN" (Some "adjective") true cached_state
           = Some (Return (Some p), st')
           ∧ log st' = log cached_state ∧ db st' = db cached_state
           ∧ attempts st' = attempts cached_state ∧ st' = cached_state.
Proof.
  apply (cached_word_untouched_collaborators run_cfg 0 "RUN" (Some "adjective")
           true cached_state 0
           [(Some "verb", ["r"; "V"; "n"]); (Some "noun", ["r"; "A"; "n"])]).
  - reflexivity.
  - reflexivity.
  - discriminate.
Defined.

(** C9: for a word bound to an empty role-map, the call returns NotFound
    for every role and ends in the state it started from: no query, no
    analyzer call, and lexicon and store as before. *)
Theorem empty_role_map_not_found cfg n W role dt st l :
  lexicon st !! apply_casing cfg W = Some l ->
  heap st !! l = Some [] ->
  call cfg (S n) W role dt st = Some (Return None, st).
Proof.
  intros Hl Hd. rewrite (call_hit _ _ _ _ _ _ l) by done.
  by rewrite (deref_lookup _ _ _ Hd), cache_probe_empty.
Qed.

Lemma empty_role_map_not_found_witness :
  call plain_cfg 1 "zzz" (Some "noun") true cached_state
  = Some (Return None, cached_state).
Proof.
  apply (empty_role_map_not_found plain_cfg 0 "zzz" (Some "noun") true cached_state 1).
  - reflexivity.
  - reflexivity.
Defined.

(** ** The recursive call (claim C4) *)

(** C4, as the code has it: when the casing function leaves the normalized
    word alone (it is idempotent there, or there is none), the recursive
    call made after rows were merged is answered by the cache probe with a
    pronunciation and leaves the state as it is, with any fuel: no query,
    no analyzer call, no deeper recursion. *)
Theorem recursion_stops_at_cache_probe cfg n word role tf st st' :
  apply_casing cfg word = word ->
  try_candidate cfg word role tf None st = Merged st' ->
  ∃ p, call cfg (S n) word role true st' = Some (Return (Some p), st').
Proof.
  intros Hc Hstep.
  pose proof (try_candidate_inv cfg word role tf st) as H. simpl in H.
  rewrite Hstep in H. destruct H as (_ & row & rows & _ & ->).
  rewrite call_merged_state by done.
  destruct (cache_probe_nonempty (merged_map (row :: rows)) role) as [p ->];
    [apply merged_map_nonempty|]. by exists p.
Qed.

Lemma recursion_stops_at_cache_probe_witness :
  ∃ p, call plain_cfg 1 "run" None true
         (merged_state "run" "run" [(Some "noun", "x y")]
            (emit (EvQuery "run" None) noun_state))
       = Some (Return (Some p),
               merged_state "run" "run" [(Some "noun", "x y")]
                 (emit (EvQuery "run" None) noun_state)).
Proof.
  apply (recursion_stops_at_cache_probe plain_cfg 0 "run" None None
           (mkState ∅ [] [mkRow 1 "run" 0 "x y" (Some "noun")] 0 [])).
  - reflexivity.
  - vm_compute. reflexivity.
Defined.

(** C4 as stated fails for a casing function that is not idempotent:
    with [str.swapcase] and a store row for "rUN", the call for "Run"
    merges the row under "rUN" and recurses; the recursive call swaps
    "rUN" back to "Run", misses the lexicon, queries the store for "Run",
    runs the analyzer and ends with NotFound. *)
Lemma recursion_reenters_lookup :
  let st' := merged_state "rUN" "rUN" [(Some "noun", "r V n")]
               (emit (EvQuery "rUN" None) swap_state) in
  apply_casing swap_cfg "Run" = "rUN"
  ∧ try_candidate swap_cfg "rUN" None None None swap_state = Merged st'
  ∧ ∃ st'', call swap_cfg 1 "rUN" None true st' = Some (Return None, st'')
            ∧ queried_words (log st'') = queried_words (log st') ++ ["Run"]
            ∧ analyzed_words (log st'') = analyzed_words (log st') ++ ["Run"]
            ∧ st'' ≠ st'
            ∧ call swap_cfg 2 "Run" None true swap_state = Some (Return None, st'').
Proof.
  split; [reflexivity|].
  split; [vm_compute; reflexivity|].
  eexists. split; [vm_compute; reflexivity|].
  split; [reflexivity|]. split; [reflexivity|]. split.
  - intros H. apply (f_equal attempts) in H. vm_compute in H. discriminate.
  - vm_compute. reflexivity.
Qed.

(** ** The spellings a call queries *)

Lemma tried_cons word tf cs :
  tried word (tf :: cs)
  = if falsy (transformed word tf) then tried word cs
    else transformed word tf :: tried word cs.
Proof.
  unfold tried. rewrite fmap_cons, filter_cons.
  destruct (falsy (transformed word tf)) eqn:Hf.
  - by rewrite decide_False.
  - by rewrite decide_True.
Qed.

Lemma lookup_loop_queries cfg n word role cs st o st' :
  apply_casing cfg word = word ->
  lookup_loop cfg (λ w r s, call cfg n w r true s) word role cs None st
  = Some (o, st') ->
  ∃ qs ws,
    queried_words (log st') = queried_words (log st) ++ qs
    ∧ qs `prefix_of` tried word cs
    ∧ analyzed_words (log st') = analyzed_words (log st) ++ ws
    ∧ ws `prefix_of` qs.
Proof.
  intros Hc. revert st.
  induction cs as [|tf cs IH]; intros st; simpl.
  { intros [= <- <-]. exists [], []. by rewrite !app_nil_r. }
  rewrite tried_cons.
  pose proof (try_candidate_inv cfg word role tf st) as H. simpl in H.
  destruct (try_candidate _ _ _ _ _ _) as [|e s|s|s].
  - rewrite H. apply IH.
  - destruct H as (Hf & _ & _ & _ & ->). rewrite Hf. intros [= <- <-].
    exists [transformed word tf], [transformed word tf].
    unfold query_event. simpl. rewrite !queried_words_app, !analyzed_words_app.
    simpl. rewrite !app_nil_r. repeat split; try done.
    apply prefix_cons, prefix_nil.
  - destruct H as (Hf & _ & ph & _ & Hm). rewrite Hf. intros Hloop.
    apply IH in Hloop as (qs & ws & Hq & Hqs & Ha & Hws).
    exists (transformed word tf :: qs), (transformed word tf :: ws).
    rewrite Hq, Ha, (missed_queried _ _ _ _ _ _ Hm),
      (missed_analyzed _ _ _ _ _ _ Hm), <- !app_assoc.
    repeat split; try done; by apply prefix_cons.
  - destruct H as (Hf & row & rows & _ & ->). rewrite Hf.
    destruct n as [|n]; [done|]. rewrite call_merged_state by done.
    intros [= <- <-]. exists [transformed word tf], [].
    unfold query_event. simpl. rewrite !queried_words_app, !analyzed_words_app.
    simpl. rewrite !app_nil_r. repeat split; try done.
    + apply prefix_cons, prefix_nil.
    + apply prefix_nil.
Qed.


(** ** Lexicon bindings (claim C5) *)






(** ** Iterations that find no row *)

(** The query reads the table and nothing else. *)
Lemma fetch_rows_db st st' lookup_word role :
  db st' = db st -> fetch_rows st' lookup_word role = fetch_rows st lookup_word role.
Proof. unfold fetch_rows. by intros ->. Qed.

Lemma fetch_rows_app_other st st' t lookup_word role :
  db st' = db st ++ t ->
  Forall (λ r, row_word r ≠ lookup_word) t ->
  fetch_rows st' lookup_word role = fetch_rows st lookup_word role.
Proof.
  unfold fetch_rows. intros -> Ht.
  destruct role as [r|]; [destruct (falsy r)|];
    by rewrite ?select_word_app_other, ?select_word_role_app_other.
Qed.


(** ** Write-back failure (claim C2) *)




(** ** Iterations that store their analysis *)

(** A word without rows has exactly the row just stored for it. *)
Lemma fetch_rows_fresh st st' lookup_word role r t :
  fetch_rows st lookup_word role = [] ->
  db st' = db st ++ r :: t ->
  row_word r = lookup_word ->
  row_role r = role ->
  Forall (λ x, row_word x ≠ lookup_word) t ->
  fetch_rows st' lookup_word role = [(role, row_phonemes r)].
Proof.
  intros Hnil Hdb Hword Hrole Ht.
  rewrite (fetch_rows_app_other (mkState (lexicon st) (heap st) (db st ++ [r])
                                   (attempts st) (log st)) st' t);
    [|simpl; by rewrite Hdb, <- app_assoc|done].
  unfold fetch_rows in *. simpl.
  assert (∀ t0, select_word t0 lookup_word = [] ->
                select_word (t0 ++ [r]) lookup_word = [(role, row_phonemes r)]) as Hsel.
  { intros t0 H0. apply select_word_nil in H0.
    unfold select_word. rewrite filter_app, H0, filter_cons, decide_True by done.
    simpl. unfold columns. by rewrite Hrole. }
  destruct role as [ro|]; [destruct (falsy ro) eqn:Hf|]; [by apply Hsel| |by apply Hsel].
  apply select_word_role_nil in Hnil.
  unfold select_word_role. rewrite filter_app, Hnil, filter_cons, decide_True by done.
  simpl. unfold columns. by rewrite Hrole.
Qed.

(** When every write stores its row and the tried words are pairwise
    distinct and without rows, each of them is analyzed once and gets one
    row, in order, and the loop ends with [return None]. *)
Lemma lookup_loop_all_stored cfg (self : string -> Role -> State -> option (Outcome * State))
    word role cs st :
  db_update_on cfg = true ->
  (∀ k, write_result cfg k ≠ RaisedNoRow) ->
  NoDup (tried word cs) ->
  (∀ l, l ∈ tried word cs -> fetch_rows st l role = [] ∧ is_Some (espeak_phonemizer cfg l)) ->
  ∃ st' rows,
    lookup_loop cfg self word role cs None st = Some (Return None, st')
    ∧ lexicon st' = lexicon st ∧ heap st' = heap st
    ∧ db st' = db st ++ rows
    ∧ Forall2 (λ l r, row_word r = l ∧ espeak_phonemizer cfg l = Some (row_phonemes r)
                      ∧ row_role r = role) (tried word cs) rows
    ∧ analyzed_words (log st') = analyzed_words (log st) ++ tried word cs.
Proof.
  intros Hon Hw. revert st.
  induction cs as [|tf cs IH]; intros st Hnd Hcs; simpl.
  { exists st, []. rewrite !app_nil_r. repeat split; done || constructor. }
  rewrite tried_cons in Hnd, Hcs |- *.
  pose proof (try_candidate_inv cfg word role tf st) as H. simpl in H.
  destruct (try_candidate _ _ _ _ _ _) as [|e s|s|s].
  - rewrite H in Hnd, Hcs |- *. by apply IH.
  - destruct H as (Hf & _ & He & _). rewrite Hf in Hcs.
    destruct (Hcs (transformed word tf)) as [_ [ph Hph]]; [by left|congruence].
  - destruct H as (Hf & _ & ph & Hph & Hm). rewrite Hf in Hnd, Hcs |- *.
    apply NoDup_cons in Hnd as [Hnotin Hnd].
    pose proof (missed_db_kept _ _ _ _ _ _ Hm Hon (Hw _)) as Hdb.
    destruct (IH s Hnd) as (st' & rows & Hloop & Hl & Hh & Hd & Hrows & Ha).
    { intros l Hl.
      rewrite (fetch_rows_app_other st s [new_row (db st) (transformed word tf) ph role]);
        [apply Hcs; by right|done|].
      repeat constructor. simpl. intros E. by subst l. }
    exists st', (new_row (db st) (transformed word tf) ph role :: rows).
    split; [done|].
    rewrite Hl, Hh, Hd, Hdb, Ha, (missed_analyzed _ _ _ _ _ _ Hm), <- !app_assoc.
    repeat split; try done; try apply Hm.
    constructor; done.
  - destruct H as (Hf & row & rows & Hrows & _). rewrite Hf in Hcs.
    destruct (Hcs (transformed word tf)) as [Hnil _]; [by left|congruence].
Qed.

(** The loop stops at the first tried word that has rows: they are merged
    and the recursive call follows. *)
Lemma lookup_loop_hit cfg (self : string -> Role -> State -> option (Outcome * State))
    word role cs st l0 row rows :
  head (tried word cs) = Some l0 ->
  fetch_rows st l0 role = row :: rows ->
  lookup_loop cfg self word role cs None st
  = self word role (merged_state word l0 (row :: rows)
                      (emit (query_event l0 role) st)).
Proof.
  revert st. induction cs as [|tf cs IH]; intros st; [done|].
  rewrite tried_cons. simpl.
  destruct (falsy (transformed word tf)) eqn:Hf.
  - intros Hhd Hrows. rewrite try_candidate_skip by done. by apply IH.
  - simpl. intros [= <-] Hrows. by erewrite try_candidate_rows.
Qed.

Lemma lookup_words_head cfg dt word :
  falsy word = false -> head (lookup_words cfg dt word) = Some word.
Proof.
  intros Hf. unfold lookup_words, candidates. rewrite tried_cons. simpl. by rewrite Hf.
Qed.

Lemma stored_rows_other_words cfg role l0 ls (rows : list Row) :
  Forall2 (λ l r, row_word r = l ∧ espeak_phonemizer cfg l = Some (row_phonemes r)
                  ∧ row_role r = role) ls rows ->
  l0 ∉ ls ->
  Forall (λ x, row_word x ≠ l0) rows.
Proof.
  induction 1 as [|l r ls rows (Hw & _) _ IH]; intros Hnotin; constructor.
  - rewrite Hw. intros ->. apply Hnotin. by left.
  - apply IH. intros Hin. apply Hnotin. by right.
Qed.

(** The second resolve of a word whose first tried spelling got a single
    row from the analyzer: one query, the row is merged, and the probe of
    the recursive call returns its phonemes. *)
Lemma call_after_store cfg n W role dt st l0 ph :
  apply_casing cfg (apply_casing cfg W) = apply_casing cfg W ->
  lexicon st !! apply_casing cfg W = None ->
  head (lookup_words cfg dt (apply_casing cfg W)) = Some l0 ->
  fetch_rows st l0 role = [(role, ph)] ->
  call cfg (S (S n)) W role dt st
  = Some (Return (Some (split ph)),
          merged_state (apply_casing cfg W) l0 [(role, ph)]
            (emit (query_event l0 role) st)).
Proof.
  intros Hc Hmiss Hhd Hrows. rewrite call_miss by done.
  erewrite lookup_loop_hit by done.
  rewrite call_merged_state by done.
  replace (merged_map [(role, ph)]) with [(role, split ph)] by done.
  by rewrite cache_probe_single.
Qed.

(** ** First and second resolve of an unknown word (claim C1) *)

(** C1, as the code has it: for a word that the lexicon does not hold and
    whose tried spellings (pairwise distinct) have no store rows, a call
    with write-back on and a store that accepts the INSERTs runs the
    analyzer once for each tried spelling, inserts one row for each (so
    exactly one row, for the normalized word, when there is no transform),
    and returns NotFound; none of this needs anything of the casing
    function.  When the casing function is idempotent on the word, the
    next call for any spelling with the same normal form returns
    the whitespace-split analyzer string of the first tried spelling (the
    normalized word itself when it is not empty), without an analyzer call
    and without a write. *)
Theorem first_resolve_stores_next_returns cfg n W role dt st :
  db_update_on cfg = true ->
  (∀ k, write_result cfg k = Stored) ->
  lexicon st !! apply_casing cfg W = None ->
  NoDup (lookup_words cfg dt (apply_casing cfg W)) ->
  (∀ l, l ∈ lookup_words cfg dt (apply_casing cfg W) ->
        fetch_rows st l role = [] ∧ is_Some (espeak_phonemizer cfg l)) ->
  ∃ st1 rows,
    call cfg (S n) W role dt st = Some (Return None, st1)
    ∧ analyzed_words (log st1)
      = analyzed_words (log st) ++ lookup_words cfg dt (apply_casing cfg W)
    ∧ db st1 = db st ++ rows
    ∧ Forall2 (λ l r, row_word r = l ∧ espeak_phonemizer cfg l = Some (row_phonemes r)
                      ∧ row_role r = role)
        (lookup_words cfg dt (apply_casing cfg W)) rows
    ∧ (falsy (apply_casing cfg W) = false ->
       head (lookup_words cfg dt (apply_casing cfg W)) = Some (apply_casing cfg W))
    ∧ ∀ W2 n2 l0,
        apply_casing cfg (apply_casing cfg W) = apply_casing cfg W ->
        apply_casing cfg W2 = apply_casing cfg W ->
        head (lookup_words cfg dt (apply_casing cfg W)) = Some l0 ->
        ∃ ph st2,
          espeak_phonemizer cfg l0 = Some ph
          ∧ call cfg (S (S n2)) W2 role dt st1 = Some (Return (Some (split ph)), st2)
          ∧ analyzed_words (log st2) = analyzed_words (log st1)
          ∧ db st2 = db st1.
Proof.
  intros Hon Hw Hmiss Hnd Hcs. rewrite call_miss by done.
  destruct (lookup_loop_all_stored cfg (λ w r s, call cfg n w r true s)
              (apply_casing cfg W) role (candidates cfg dt) st Hon)
    as (st1 & rows & -> & Hl & Hh & Hd & Hrows & Ha); [|done|done|].
  { intros k. by rewrite Hw. }
  exists st1, rows. do 4 (split; [done|]).
  split; [apply lookup_words_head|].
  intros W2 n2 l0 Hc HW2 Hhd.
  unfold lookup_words in *.
  destruct (tried _ _) as [|l ls] eqn:Htried; [done|].
  simpl in Hhd. injection Hhd as ->.
  inversion Hrows as [|? r ? rows' (Hword & Hph & Hrole) Hrows']; subst.
  apply NoDup_cons in Hnd as [Hnotin _].
  exists (row_phonemes r). eexists. split; [done|].
  rewrite call_after_store with (l0 := row_word r) (ph := row_phonemes r).
  - split; [done|]. simpl. rewrite analyzed_words_app. simpl.
    by rewrite app_nil_r.
  - by rewrite HW2.
  - by rewrite HW2, Hl.
  - rewrite HW2. unfold lookup_words. by rewrite Htried.
  - eapply fetch_rows_fresh; [|done..|by eapply stored_rows_other_words].
    apply Hcs. by left.
Qed.

Lemma first_resolve_stores_next_returns_witness :
  ∃ st1 rows,
    call run_cfg 1 "RUN" None true no_state = Some (Return None, st1)
    ∧ analyzed_words (log st1)
      = analyzed_words (log no_state)
        ++ lookup_words run_cfg true (apply_casing run_cfg "RUN")
    ∧ db st1 = db no_state ++ rows
    ∧ Forall2 (λ l r, row_word r = l ∧ espeak_phonemizer run_cfg l = Some (row_phonemes r)
                      ∧ row_role r = None)
        (lookup_words run_cfg true (apply_casing run_cfg "RUN")) rows
    ∧ (falsy (apply_casing run_cfg "RUN") = false ->
       head (lookup_words run_cfg true (apply_casing run_cfg "RUN"))
       = Some (apply_casing run_cfg "RUN"))
    ∧ ∀ W2 n2 l0,
        apply_casing run_cfg (apply_casing run_cfg "RUN") = apply_casing run_cfg "RUN" ->
        apply_casing run_cfg W2 = apply_casing run_cfg "RUN" ->
        head (lookup_words run_cfg true (apply_casing run_cfg "RUN")) = Some l0 ->
        ∃ ph st2,
          espeak_phonemizer run_cfg l0 = Some ph
          ∧ call run_cfg (S (S n2)) W2 None true st1
            = Some (Return (Some (split ph)), st2)
          ∧ analyzed_words (log st2) = analyzed_words (log st1)
          ∧ db st2 = db st1.
Proof.
  apply (first_resolve_stores_next_returns run_cfg 0 "RUN" None true no_state).
  - reflexivity.
  - intros k. reflexivity.
  - reflexivity.
  - vm_compute. apply NoDup_singleton.
  - intros l Hl. vm_compute in Hl. apply list_elem_of_singleton in Hl as ->.
    split; [reflexivity|]. eexists. reflexivity.
Defined.

(** C1 as stated fails: with an empty store and lexicon, lower-casing, no
    transform and the analyzer answering "r V n" for "run", the first
    resolve of "RUN" runs the analyzer and inserts one row, but returns
    NotFound, not the analyzed sequence; only the next resolve returns
    it. *)
Lemma first_resolve_returns_not_found :
  espeak_phonemizer run_cfg "run" = Some "r V n"
  ∧ split "r V n" = ["r"; "V"; "n"]
  ∧ ∃ st1 st2,
      call run_cfg 1 "RUN" None true no_state = Some (Return None, st1)
      ∧ analyzed_words (log st1) = ["run"]
      ∧ db st1 = [mkRow 1 "run" 0 "r V n" None]
      ∧ Return None ≠ Return (Some ["r"; "V"; "n"])
      ∧ call run_cfg 2 "RUN" None true st1 = Some (Return (Some ["r"; "V"; "n"]), st2).
Proof.
  split; [reflexivity|]. split; [reflexivity|].
  eexists _, _. split; [vm_compute; reflexivity|].
  split; [reflexivity|]. split; [reflexivity|]. split; [discriminate|].
  vm_compute. reflexivity.
Qed.

(** ** Repeated calls and the analyzer (claim C3) *)

Lemma filter_nil_Forall {A} (P : A -> Prop) `{∀ x, Decision (P x)} (l : list A) :
  filter P l = [] -> Forall (λ x, ¬ P x) l.
Proof.
  induction l as [|x l IH]; [constructor|].
  rewrite filter_cons. destruct (decide (P x)); [done|].
  intros Hl. constructor; auto.
Qed.

(** Rows are never deleted, so a query that had rows still has rows. *)
Lemma fetch_rows_mono st st' lookup_word role :
  db st `prefix_of` db st' ->
  fetch_rows st lookup_word role ≠ [] ->
  fetch_rows st' lookup_word role ≠ [].
Proof.
  intros [t Ht]. unfold fetch_rows. rewrite Ht.
  assert (∀ t0, select_word t0 lookup_word ≠ [] ->
                select_word (t0 ++ t) lookup_word ≠ []) as Hsel.
  { intros t0 H0 H1. apply H0. apply select_word_nil in H1. apply select_word_nil.
    rewrite filter_app in H1. by apply app_eq_nil in H1 as [? _]. }
  destruct role as [r|]; [destruct (falsy r)|]; [by apply Hsel| |by apply Hsel].
  intros H0 H1. apply H0. apply select_word_role_nil in H1.
  apply select_word_role_nil.
  rewrite filter_app in H1. by apply app_eq_nil in H1 as [? _].
Qed.

(** After a normal return of the loop with a store that keeps the written
    rows, the word is in the lexicon or its first tried spelling has rows. *)
Lemma lookup_loop_leaves_rows cfg (self : string -> Role -> State -> option (Outcome * State))
    word role cs st o st1 :
  db_update_on cfg = true ->
  (∀ k, write_result cfg k ≠ RaisedNoRow) ->
  (∀ s o' s', self word role s = Some (o', s') -> extends s s') ->
  lookup_loop cfg self word role cs None st = Some (Return o, st1) ->
  is_Some (lexicon st1 !! word)
  ∨ match head (tried word cs) with
    | Some l0 => fetch_rows st1 l0 role ≠ []
    | None => True
    end.
Proof.
  intros Hon Hw Hself. revert st.
  induction cs as [|tf cs IH]; intros st; simpl; [by right|].
  rewrite tried_cons.
  pose proof (try_candidate_inv cfg word role tf st) as H. simpl in H.
  destruct (try_candidate _ _ _ _ _ _) as [|e s|s|s].
  - rewrite H. apply IH.
  - done.
  - destruct H as (Hf & Hnil & ph & Hph & Hm). rewrite Hf. simpl.
    intros Hloop. right.
    apply (fetch_rows_mono s).
    + eapply lookup_loop_extends in Hloop; [apply Hloop|done].
    + erewrite fetch_rows_fresh;
        [done|done|by apply (missed_db_kept _ _ _ _ _ _ Hm)|done|done|constructor].
  - destruct H as (Hf & row & rows & Hrows & ->).
    intros Hcall. left. apply Hself in Hcall as [Hlex _]. apply Hlex.
    rewrite merged_state_word. eauto.
Qed.

Lemma lookup_loop_none_tried cfg (self : string -> Role -> State -> option (Outcome * State))
    word role cs st :
  tried word cs = [] ->
  lookup_loop cfg self word role cs None st = Some (Return None, st).
Proof.
  induction cs as [|tf cs IH]; [done|].
  rewrite tried_cons. simpl.
  destruct (falsy (transformed word tf)) eqn:Hf; [|done].
  intros Hnil. rewrite try_candidate_skip by done. by apply IH.
Qed.

(** With an idempotent casing function, the analyzer runs at most once for
    each candidate of the loop. *)
Lemma lookup_loop_analyzer_bound cfg n word role cs st o st1 :
  apply_casing cfg word = word ->
  lookup_loop cfg (λ w r s, call cfg n w r true s) word role cs None st
  = Some (o, st1) ->
  analyzer_calls (log st1) ≤ analyzer_calls (log st) + length cs.
Proof.
  intros Hc. revert st.
  induction cs as [|tf cs IH]; intros st; simpl.
  { intros [= <- <-]. lia. }
  pose proof (try_candidate_inv cfg word role tf st) as H. simpl in H.
  destruct (try_candidate _ _ _ _ _ _) as [|e s|s|s].
  - intros Hloop. apply IH in Hloop. lia.
  - destruct H as (_ & _ & _ & _ & ->). intros [= <- <-].
    unfold analyzer_calls. simpl. rewrite !analyzed_words_app, !length_app. simpl. lia.
  - destruct H as (_ & _ & ph & _ & Hm). intros Hloop. apply IH in Hloop.
    unfold analyzer_calls in *. rewrite (missed_analyzed _ _ _ _ _ _ Hm) in Hloop.
    rewrite length_app in Hloop. simpl in Hloop. lia.
  - destruct H as (_ & row & rows & _ & ->).
    destruct n as [|n]; [done|]. rewrite call_merged_state by done.
    intros [= <- <-]. unfold analyzer_calls. simpl.
    rewrite analyzed_words_app, length_app. simpl. lia.
Qed.

(** A call in a state where the word is cached, or where its first tried
    spelling has rows, returns without running the analyzer. *)
Lemma call_resolvable cfg n W role dt st :
  apply_casing cfg (apply_casing cfg W) = apply_casing cfg W ->
  is_Some (lexicon st !! apply_casing cfg W)
  ∨ match head (lookup_words cfg dt (apply_casing cfg W)) with
    | Some l0 => fetch_rows st l0 role ≠ []
    | None => True
    end ->
  ∃ o st', call cfg (S (S n)) W role dt st = Some (Return o, st')
           ∧ analyzed_words (log st') = analyzed_words (log st)
           ∧ db st' = db st.
Proof.
  intros Hc Hres.
  destruct (lexicon st !! apply_casing cfg W) as [l|] eqn:Hl.
  { rewrite (call_hit _ _ _ _ _ _ l) by done. eauto. }
  destruct Hres as [[? ?]|Hres]; [done|].
  rewrite call_miss by done. unfold lookup_words in Hres.
  destruct (head (tried _ _)) as [l0|] eqn:Hhd.
  - destruct (fetch_rows st l0 role) as [|row rows] eqn:Hrows; [done|].
    erewrite lookup_loop_hit by done.
    rewrite call_merged_state by done.
    eexists _, _. split; [done|]. simpl.
    rewrite analyzed_words_app. simpl. by rewrite app_nil_r.
  - rewrite lookup_loop_none_tried; [eauto|].
    by destruct (tried _ _).
Qed.

(** C3, as the code has it: with write-back on, a store that keeps the
    written rows and a casing function that is idempotent on the word, a
    call that returns has run the analyzer at most once for each candidate
    of the loop (once at most when there is no transform), and the next
    call with the same arguments returns without running it at all. *)
Theorem second_call_runs_no_analyzer cfg n W role dt st o1 st1 :
  apply_casing cfg (apply_casing cfg W) = apply_casing cfg W ->
  db_update_on cfg = true ->
  (∀ k, write_result cfg k ≠ RaisedNoRow) ->
  call cfg n W role dt st = Some (Return o1, st1) ->
  analyzer_calls (log st1) ≤ analyzer_calls (log st) + length (candidates cfg dt)
  ∧ ∀ n2, ∃ o2 st2,
      call cfg (S (S n2)) W role dt st1 = Some (Return o2, st2)
      ∧ analyzer_calls (log st2) = analyzer_calls (log st1).
Proof.
  intros Hc Hon Hw Hcall.
  destruct n as [|n]; [done|].
  destruct (lexicon st !! apply_casing cfg W) as [l|] eqn:Hl.
  - rewrite (call_hit _ _ _ _ _ _ l) in Hcall by done.
    injection Hcall as <- <-. split; [lia|]. intros n2.
    destruct (call_resolvable cfg n2 W role dt st Hc) as (o2 & st2 & H2 & Ha & _);
      [left; eauto|].
    exists o2, st2. unfold analyzer_calls. by rewrite Ha.
  - rewrite call_miss in Hcall by done. split.
    + by eapply lookup_loop_analyzer_bound.
    + intros n2.
      destruct (call_resolvable cfg n2 W role dt st1 Hc) as (o2 & st2 & H2 & Ha & _).
      * eapply lookup_loop_leaves_rows; [done|done| |done].
        intros s o' s'. apply call_extends.
      * exists o2, st2. unfold analyzer_calls. by rewrite Ha.
Qed.

Lemma second_call_runs_no_analyzer_witness :
  ∃ o1 st1,
    call run_cfg 1 "RUN" None true no_state = Some (Return o1, st1)
    ∧ analyzer_calls (log st1)
      ≤ analyzer_calls (log no_state) + length (candidates run_cfg true)
    ∧ ∀ n2, ∃ o2 st2,
        call run_cfg (S (S n2)) "RUN" None true st1 = Some (Return o2, st2)
        ∧ analyzer_calls (log st2) = analyzer_calls (log st1).
Proof.
  eexists _, _. split.
  - vm_compute. reflexivity.
  - eapply (second_call_runs_no_analyzer run_cfg 1 "RUN" None true no_state).
    + reflexivity.
    + reflexivity.
    + intros k. discriminate.
    + vm_compute. reflexivity.
Defined.

(** C3 as stated fails when write-back is off: nothing is stored, and each
    of two successive calls for "RUN" runs the analyzer. *)
Lemma analyzer_runs_in_each_call :
  ∃ st1 st2,
    call readonly_cfg 1 "RUN" None true no_state = Some (Return None, st1)
    ∧ call readonly_cfg 1 "RUN" None true st1 = Some (Return None, st2)
    ∧ analyzed_words (log st2) = ["run"; "run"]
    ∧ ¬ analyzer_calls (log st2) - analyzer_calls (log no_state) ≤ 1.
Proof.
  eexists _, _. split; [vm_compute; reflexivity|].
  split; [vm_compute; reflexivity|]. split; [reflexivity|].
  vm_compute. lia.
Qed.

(** A casing function that is not idempotent defeats the write-back: the
    second call finds the row stored for "rUN", merges it, and its
    recursive call swaps "rUN" back to "Run" and runs the analyzer again. *)
Lemma swapped_casing_analyzes_again :
  ∃ st1 st2,
    call swap_cfg 1 "Run" None true no_state = Some (Return None, st1)
    ∧ analyzed_words (log st1) = ["rUN"]
    ∧ call swap_cfg 2 "Run" None true st1 = Some (Return None, st2)
    ∧ analyzed_words (log st2) = ["rUN"; "Run"].
Proof.
  eexists _, _. split; [vm_compute; reflexivity|]. split; [reflexivity|].
  split; [vm_compute; reflexivity|]. reflexivity.
Qed.

(** With a transform, the first call for an unknown word analyzes and
    stores every tried spelling. *)
Lemma stem_analyzed_with_word :
  ∃ st1,
    call stem_cfg 1 "runs" None true no_state = Some (Return None, st1)
    ∧ analyzed_words (log st1) = ["runs"; "run"]
    ∧ row_word <$> db st1 = ["runs"; "run"].
Proof.
  eexists. split; [vm_compute; reflexivity|]. split; reflexivity.
Qed.

(** ** Round trip through the store (claim C6) *)

(** A loop that ends with [return None] merged nothing (with an idempotent
    casing function): the lexicon is as before, and every new row holds
    the analyzer's string for its word, under the role of the call. *)
Lemma lookup_loop_not_found_inv cfg n word role cs st st1 :
  apply_casing cfg word = word ->
  lookup_loop cfg (λ w r s, call cfg n w r true s) word role cs None st
  = Some (Return None, st1) ->
  lexicon st1 = lexicon st
  ∧ ∃ rows, db st1 = db st ++ rows
            ∧ Forall (λ r, espeak_phonemizer cfg (row_word r) = Some (row_phonemes r)
                           ∧ row_role r = role) rows.
Proof.
  intros Hc. revert st.
  induction cs as [|tf cs IH]; intros st; simpl.
  { intros [= <-]. split; [done|]. exists []. by rewrite app_nil_r. }
  pose proof (try_candidate_inv cfg word role tf st) as H. simpl in H.
  destruct (try_candidate _ _ _ _ _ _) as [|e s|s|s].
  - apply IH.
  - done.
  - destruct H as (_ & _ & ph & Hph & Hm). intros Hloop.
    apply IH in Hloop as (Hlex & rows & Hdb & Hrows).
    split; [by rewrite Hlex; apply Hm|].
    destruct (missed_db _ _ _ _ _ _ Hm) as [Hs|Hs]; rewrite Hdb, Hs.
    + by exists rows.
    + exists (new_row (db st) (transformed word tf) ph role :: rows).
      split; [by rewrite <- app_assoc|]. by constructor.
  - destruct H as (_ & row & rows & _ & ->).
    destruct n as [|n]; [done|]. rewrite call_merged_state by done.
    destruct (cache_probe_nonempty (merged_map (row :: rows)) role) as [p Hp];
      [apply merged_map_nonempty|].
    rewrite Hp. done.
Qed.

(** The rows that a query returns for a word that had none before are the
    rows added since. *)
Lemma fetch_rows_added st st' lookup_word role t (P : Role * string -> Prop) :
  fetch_rows st lookup_word role = [] ->
  db st' = db st ++ t ->
  Forall (λ r, row_word r = lookup_word -> row_role r = role -> P (columns r)) t ->
  (falsy_role role = true ->
   Forall (λ r, row_word r = lookup_word -> P (columns r)) t) ->
  Forall P (fetch_rows st' lookup_word role).
Proof.
  intros Hnil Hdb Ht Ht'. unfold fetch_rows in *. rewrite Hdb.
  assert (select_word (db st) lookup_word = [] ->
          Forall (λ r, row_word r = lookup_word -> P (columns r)) t ->
          Forall P (select_word (db st ++ t) lookup_word)) as Hsel.
  { intros H0 H1. apply select_word_Forall, Forall_app. split; [|done].
    apply select_word_nil, filter_nil_Forall in H0.
    eapply Forall_impl; [exact H0|]. simpl. tauto. }
  destruct role as [r|]; [destruct (falsy r) eqn:Hf|]; [by auto| |by auto].
  apply select_word_role_Forall, Forall_app. split.
  - apply select_word_role_nil, filter_nil_Forall in Hnil.
    eapply Forall_impl; [exact Hnil|]. simpl. tauto.
  - done.
Qed.

(** C6, as the code has it: when a resolve obtained the pronunciation of a
    non-empty normalized word from the analyzer, wrote it back and ended
    with NotFound (no candidate had rows), the next resolve of the same
    word and role, with a casing function that is idempotent on the word,
    returns the symbols of the analyzer's string, split at whitespace, in
    order. *)
Theorem stored_analysis_round_trip cfg n W role dt st st1 ph :
  apply_casing cfg (apply_casing cfg W) = apply_casing cfg W ->
  falsy (apply_casing cfg W) = false ->
  db_update_on cfg = true ->
  write_result cfg (attempts st) ≠ RaisedNoRow ->
  lexicon st !! apply_casing cfg W = None ->
  fetch_rows st (apply_casing cfg W) role = [] ->
  espeak_phonemizer cfg (apply_casing cfg W) = Some ph ->
  call cfg n W role dt st = Some (Return None, st1) ->
  ∀ n2 dt2, ∃ st2,
    call cfg (S (S n2)) W role dt2 st1 = Some (Return (Some (split ph)), st2).
Proof.
  intros Hc Hf Hon Hw Hmiss Hnil Hph Hcall n2 dt2.
  destruct n as [|n]; [done|]. rewrite call_miss in Hcall by done.
  unfold candidates in Hcall. simpl in Hcall.
  pose proof (try_candidate_inv cfg (apply_casing cfg W) role None st) as H.
  simpl in H.
  destruct (try_candidate _ _ _ _ _ _) as [|e s|s|s].
  - congruence.
  - done.
  - destruct H as (_ & _ & ph' & Hph' & Hm).
    assert (ph' = ph) as -> by congruence.
    pose proof (missed_db_kept _ _ _ _ _ _ Hm Hon Hw) as Hs.
    apply lookup_loop_not_found_inv in Hcall as (Hlex & rows & Hdb & Hrows); [|done].
    rewrite Hs, <- app_assoc in Hdb. simpl in Hdb.
    assert (Forall (λ x, x = (role, ph)) (fetch_rows st1 (apply_casing cfg W) role))
      as Hall.
    { eapply fetch_rows_added; [done|done| |].
      - constructor; [done|].
        eapply Forall_impl; [exact Hrows|]. simpl.
        intros r [Hr1 Hr2] Hr3 _. unfold columns. rewrite Hr3 in Hr1. congruence.
      - intros _. constructor; [done|].
        eapply Forall_impl; [exact Hrows|]. simpl.
        intros r [Hr1 Hr2] Hr3. unfold columns. rewrite Hr3 in Hr1. congruence. }
    assert (fetch_rows st1 (apply_casing cfg W) role ≠ []) as Hne.
    { apply (fetch_rows_mono s).
      - rewrite Hdb, Hs. exists rows. by rewrite <- app_assoc.
      - erewrite fetch_rows_fresh; [done|done|done|done|done|constructor]. }
    destruct (fetch_rows st1 (apply_casing cfg W) role) as [|row rows'] eqn:Hrows1;
      [done|].
    rewrite call_miss by (by rewrite Hlex, (missed_lexicon _ _ _ _ _ _ Hm)).
    erewrite lookup_loop_hit; [|by apply lookup_words_head|done].
    rewrite call_merged_state by done.
    rewrite (merged_map_const role ph) by done.
    rewrite cache_probe_single. eauto.
  - destruct H as (_ & row & rows & Hrows & _). congruence.
Qed.

Lemma stored_analysis_round_trip_witness :
  ∃ st1,
    call plain_cfg 1 "run" (Some "verb") true noun_state = Some (Return None, st1)
    ∧ ∀ n2 dt2, ∃ st2,
        call plain_cfg (S (S n2)) "run" (Some "verb") dt2 st1
        = Some (Return (Some (split "r V n")), st2).
Proof.
  eexists. split.
  - vm_compute. reflexivity.
  - eapply (stored_analysis_round_trip plain_cfg 1 "run" (Some "verb") true noun_state).
    + reflexivity.
    + reflexivity.
    + reflexivity.
    + discriminate.
    + reflexivity.
    + reflexivity.
    + reflexivity.
    + vm_compute. reflexivity.
Defined.

(** C6 as stated fails for a later resolve that is not the next one: the
    store knows "run" as a noun only.  Resolving ("run", "verb") runs the
    analyzer and writes "r V n" back.  Resolving ("run", "noun") then
    caches the role-map of the noun row.  A later resolve of
    ("run", "verb") is answered from that role-map with the noun's
    phonemes, not with the stored analysis. *)
Lemma cached_noun_hides_stored_verb :
  ∃ st1 st2 st3,
    call plain_cfg 1 "run" (Some "verb") true noun_state = Some (Return None, st1)
    ∧ analyzed_words (log st1) = ["run"]
    ∧ select_word_role (db st1) "run" "verb" = [(Some "verb", "r V n")]
    ∧ call plain_cfg 2 "run" (Some "noun") true st1
      = Some (Return (Some ["x"; "y"]), st2)
    ∧ call plain_cfg 2 "run" (Some "verb") true st2
      = Some (Return (Some ["x"; "y"]), st3)
    ∧ ["x"; "y"] ≠ split "r V n".
Proof.
  eexists _, _, _. split; [vm_compute; reflexivity|].
  split; [reflexivity|]. split; [reflexivity|].
  split; [vm_compute; reflexivity|]. split; [vm_compute; reflexivity|].
  discriminate.
Qed.

(** The next resolve can miss the stored analysis too, when the first one
    merged rows of a transformed spelling: "runs" is analyzed and written
    back, then the rows of "run" are cached under "runs", and the next
    resolve of "runs" returns the phonemes of "run". *)
Lemma merged_stem_hides_stored_analysis :
  ∃ st1 st2,
    call stem_cfg 2 "runs" None true stem_state
    = Some (Return (Some ["r"; "A"; "n"]), st1)
    ∧ analyzed_words (log st1) = ["runs"]
    ∧ select_word (db st1) "runs" = [(None, "?")]
    ∧ call stem_cfg 2 "runs" None true st1 = Some (Return (Some ["r"; "A"; "n"]), st2)
    ∧ ["r"; "A"; "n"] ≠ split "?".
Proof.
  eexists _, _. split; [vm_compute; reflexivity|].
  split; [reflexivity|]. split; [reflexivity|].
  split; [vm_compute; reflexivity|]. discriminate.
Qed.

(** ** The empty role and no role (claim C10) *)

Lemma fetch_rows_default st w :
  fetch_rows st w (Some DEFAULT_ROLE) = fetch_rows st w None.
Proof. done. Qed.

Lemma rel_state_refl st : rel_state st st.
Proof.
  repeat split; [|by left].
  apply Forall2_same_length_lookup_2; [done|]. intros i d d' H1 H2. left. congruence.
Qed.

Lemma rel_state_emit e1 e2 st1 st2 :
  rel_state st1 st2 -> rel_state (emit e1 st1) (emit e2 st2).
Proof. by intros (? & ? & ? & ?). Qed.

Lemma select_word_snoc t r w :
  select_word t w = [] ->
  select_word (t ++ [r]) w
  = if decide (row_word r = w) then [columns r] else [].
Proof.
  intros H. apply select_word_nil in H. unfold select_word.
  rewrite filter_app, H, filter_cons. simpl.
  by destruct (decide (row_word r = w)).
Qed.

Section EmptyRole.

Variable cfg : SqlitePhonemizer.

(** The two runs write rows that differ in the role only, for a word that
    had no row. *)
Lemma rel_state_write_back lookup_word ph st1 st2 :
  rel_state st1 st2 ->
  select_word (db st1) lookup_word = [] ->
  select_word (db st2) lookup_word = [] ->
  rel_state (write_back cfg lookup_word ph (Some DEFAULT_ROLE) st1)
            (write_back cfg lookup_word ph None st2).
Proof.
  intros (Hlex & Hheap & Hdb & Hatt) H1 H2.
  assert (∀ w, rel_rows
            (select_word (db st1 ++ [new_row (db st1) lookup_word ph (Some DEFAULT_ROLE)]) w)
            (select_word (db st2 ++ [new_row (db st2) lookup_word ph None]) w)) as Hnew.
  { intros w. destruct (decide (lookup_word = w)) as [<-|Hne].
    - rewrite !select_word_snoc by done. simpl. rewrite !decide_True by done.
      right. by exists ph.
    - rewrite !select_word_app_other by (by repeat constructor). apply Hdb. }
  unfold write_back. simpl. rewrite Hatt.
  destruct (write_result cfg (attempts st2)); repeat split; simpl; auto.
Qed.

Lemma rel_state_analyze lookup_word st1 st2 :
  rel_state st1 st2 ->
  select_word (db st1) lookup_word = [] ->
  select_word (db st2) lookup_word = [] ->
  match analyze cfg lookup_word (Some DEFAULT_ROLE) st1,
        analyze cfg lookup_word None st2 with
  | inl (e1, t1), inl (e2, t2) => e1 = e2 ∧ rel_state t1 t2
  | inr t1, inr t2 => rel_state t1 t2
  | _, _ => False
  end.
Proof.
  intros Hrel H1 H2. unfold analyze.
  destruct (espeak_phonemizer cfg lookup_word) as [ph|].
  - destruct (db_update_on cfg).
    + apply rel_state_write_back; [by apply rel_state_emit|done..].
    + by apply rel_state_emit.
  - split; [done|]. by apply rel_state_emit.
Qed.

Lemma rel_map_merged rows1 rows2 :
  rel_rows rows1 rows2 -> rel_map (merged_map rows1) (merged_map rows2).
Proof.
  intros [->|(s & -> & ->)]; [by left|]. right. by exists (split s).
Qed.

Lemma rel_state_merged word lookup_word rows1 rows2 st1 st2 :
  rel_state st1 st2 ->
  rel_rows rows1 rows2 ->
  rel_state (merged_state word lookup_word rows1 st1)
            (merged_state word lookup_word rows2 st2).
Proof.
  intros (Hlex & Hheap & Hdb & Hatt) Hrows.
  split; [|split; [|split]]; simpl; [| |done..].
  - by rewrite Hlex, (Forall2_length _ _ _ Hheap).
  - apply Forall2_app; [done|].
    constructor; [by apply rel_map_merged|constructor].
Qed.

(** One iteration with the empty role and one with no role end the same way, in
    related states. *)
Lemma rel_try_candidate word tf st1 st2 :
  rel_state st1 st2 ->
  match try_candidate cfg word (Some DEFAULT_ROLE) tf None st1,
        try_candidate cfg word None tf None st2 with
  | Skipped, Skipped => True
  | Raised e1 t1, Raised e2 t2 => e1 = e2 ∧ rel_state t1 t2
  | Missed t1, Missed t2 => rel_state t1 t2
  | Merged t1, Merged t2 => rel_state t1 t2
  | _, _ => False
  end.
Proof.
  intros Hrel.
  destruct (falsy (transformed word tf)) eqn:Hf.
  { by rewrite !try_candidate_skip. }
  pose proof Hrel as (_ & _ & Hdb & _).
  specialize (Hdb (transformed word tf)).
  destruct (select_word (db st1) (transformed word tf)) as [|row1 rows1] eqn:H1;
    destruct (select_word (db st2) (transformed word tf)) as [|row2 rows2] eqn:H2;
    try (by destruct Hdb as [?|(? & ? & ?)]).
  - rewrite !try_candidate_no_rows by done.
    pose proof (rel_state_analyze (transformed word tf) _ _
                  (rel_state_emit
                     (query_event (transformed word tf) (Some DEFAULT_ROLE))
                     (query_event (transformed word tf) None) _ _ Hrel) H1 H2) as Ha.
    destruct (analyze _ _ _ _) as [[e1 t1]|t1], (analyze _ _ _ _) as [[e2 t2]|t2]; done.
  - erewrite !try_candidate_rows by done.
    apply rel_state_merged; [by apply rel_state_emit|done].
Qed.

Lemma rel_lookup_loop
    (self1 self2 : string -> Role -> State -> option (Outcome * State))
    word cs st1 st2 :
  (∀ s1 s2, rel_state s1 s2 ->
            rel_result (self1 word (Some DEFAULT_ROLE) s1) (self2 word None s2)) ->
  rel_state st1 st2 ->
  rel_result (lookup_loop cfg self1 word (Some DEFAULT_ROLE) cs None st1)
             (lookup_loop cfg self2 word None cs None st2).
Proof.
  intros Hself. revert st1 st2.
  induction cs as [|tf cs IH]; intros st1 st2 Hrel; simpl; [done|].
  pose proof (rel_try_candidate word tf st1 st2 Hrel) as H.
  destruct (try_candidate _ _ _ _ _ st1), (try_candidate _ _ _ _ _ st2);
    try done; auto.
  destruct H as [-> H]. by split.
Qed.

Lemma rel_cache_probe d1 d2 :
  rel_map d1 d2 -> cache_probe d1 (Some DEFAULT_ROLE) = cache_probe d2 None.
Proof.
  intros [->|(p & -> & ->)]; [apply cache_probe_default|done].
Qed.

Lemma rel_call n W dt st1 st2 :
  rel_state st1 st2 ->
  rel_result (call cfg n W (Some DEFAULT_ROLE) dt st1) (call cfg n W None dt st2).
Proof.
  revert W dt st1 st2.
  induction n as [|n IH]; intros W dt st1 st2 Hrel; [done|].
  pose proof Hrel as (Hlex & Hheap & _).
  destruct (lexicon st2 !! apply_casing cfg W) as [l|] eqn:Hl.
  - rewrite !(call_hit _ _ _ _ _ _ l) by (done || by rewrite Hlex).
    simpl. split; [|done]. f_equal. apply rel_cache_probe.
    unfold deref.
    destruct (heap st1 !! l) as [d1|] eqn:H1, (heap st2 !! l) as [d2|] eqn:H2; simpl.
    + by eapply Forall2_lookup_lr.
    + apply lookup_lt_Some in H1. apply lookup_ge_None in H2.
      apply Forall2_length in Hheap. unfold ROLE_TO_PHONEMES in *. lia.
    + apply lookup_lt_Some in H2. apply lookup_ge_None in H1.
      apply Forall2_length in Hheap. unfold ROLE_TO_PHONEMES in *. lia.
    + by left.
  - rewrite !call_miss by (done || by rewrite Hlex).
    apply rel_lookup_loop; [|done]. intros s1 s2. apply IH.
Qed.

(** C10: a call with the empty-string role returns what the call with no
    role returns, for every word, state, fuel and transform setting: the
    probe's lookup of the exact empty role is the lookup of the default
    role, and the store path sends the same query without a role. *)
Theorem empty_role_is_no_role n W dt st :
  (∀ d, cache_probe d (Some DEFAULT_ROLE) = cache_probe d None)
  ∧ (∀ s w, fetch_rows s w (Some DEFAULT_ROLE) = fetch_rows s w None)
  ∧ fst <$> call cfg n W (Some DEFAULT_ROLE) dt st
    = fst <$> call cfg n W None dt st.
Proof.
  split; [apply cache_probe_default|]. split; [apply fetch_rows_default|].
  pose proof (rel_call n W dt st st (rel_state_refl st)) as H.
  destruct (call cfg n W (Some DEFAULT_ROLE) dt st) as [[o1 s1]|],
           (call cfg n W None dt st) as [[o2 s2]|]; simpl in *; try done.
  by destruct H as [-> _].
Qed.

End EmptyRole.

(** ** Properties that every call keeps *)

(** A relation between states that holds across every iteration of the
    loop holds across every call with that role. *)
Lemma call_invariant cfg role (R : State -> State -> Prop) :
  (∀ st, R st st) ->
  (∀ a b c, R a b -> R b c -> R a c) ->
  (∀ word tf st,
     match try_candidate cfg word role tf None st with
     | Skipped => True
     | Raised _ st' | Missed st' | Merged st' => R st st'
     end) ->
  ∀ n W dt st o st', call cfg n W role dt st = Some (o, st') -> R st st'.
Proof.
  intros Hrefl Htrans Hstep.
  assert (∀ (self : string -> Role -> State -> option (Outcome * State)) word,
            (∀ s o' s', self word role s = Some (o', s') -> R s s') ->
            ∀ cs st o st',
              lookup_loop cfg self word role cs None st = Some (o, st') ->
              R st st') as Hloop.
  { intros self word Hself cs.
    induction cs as [|tf cs IH]; intros st o st'; simpl.
    - by intros [= <- <-].
    - pose proof (Hstep word tf st) as H.
      destruct (try_candidate _ _ _ _ _ _) as [|e s|s|s].
      + apply IH.
      + by intros [= <- <-].
      + intros Hl. eapply Htrans; [done|by eapply IH].
      + intros Hl. eapply Htrans; [done|by eapply Hself]. }
  induction n as [|n IH]; intros W dt st o st'; [done|].
  destruct (lexicon st !! apply_casing cfg W) as [l|] eqn:Hl.
  - rewrite (call_hit _ _ _ _ _ _ l) by done. by intros [= <- <-].
  - rewrite call_miss by done. apply Hloop. intros s o' s'. apply IH.
Qed.

Lemma foldr_max_ge (f : Row -> Z) (l : list Row) z :
  (z ≤ foldr (λ x acc, Z.max (f x) acc) z l)%Z
  ∧ ∀ r, r ∈ l -> (f r ≤ foldr (λ x acc, Z.max (f x) acc) z l)%Z.
Proof.
  induction l as [|x l [IH1 IH2]]; simpl.
  - split; [lia|]. intros r Hr. by apply elem_of_nil in Hr.
  - split; [lia|]. intros r Hr. apply elem_of_cons in Hr as [->|Hr]; [lia|].
    specialize (IH2 r Hr). lia.
Qed.



(** At the end of the INTEGERs the per-word order stops growing: once
    [MAX(pron_order) + 1] has become the REAL, the next INSERT for the word
    computes the same [pron_order] again. *)
Lemma next_pron_order_saturates t w ph role :
  next_pron_order t w = (INT64_MAX + 1)%Z ->
  next_pron_order (t ++ [new_row t w ph role]) w = (INT64_MAX + 1)%Z.
Proof.
  intros Hsat. unfold next_pron_order at 1.
  rewrite filter_app, filter_cons, decide_True by done. simpl.
  destruct (filter (λ r, row_word r = w) t) as [|x l] eqn:Hf.
  - unfold next_pron_order in Hsat. rewrite Hf in Hsat. done.
  - simpl. rewrite foldr_app. simpl. rewrite Hsat.
    destruct (foldr_max_ge row_pron_order l
                (Z.max (INT64_MAX + 1) (row_pron_order x))) as [H _].
    unfold sql_succ. lia.
Qed.



(** X14: a call never deletes or changes a row: the table after the call
    is the table before it followed by the rows the call inserted, and
    each of those holds a non-empty lookup word, the analyzer's string for
    that word and the role of the call. *)
Theorem inserted_rows_hold_analysis cfg n W role dt st o st' :
  call cfg n W role dt st = Some (o, st') ->
  ∃ rows, db st' = db st ++ rows ∧ Forall (analysis_row cfg role) rows.
Proof.
  apply (call_invariant cfg role
           (λ s s', ∃ rows, db s' = db s ++ rows
                            ∧ Forall (analysis_row cfg role) rows)).
  - intros s. exists []. by rewrite app_nil_r.
  - intros a b c (r1 & H1 & F1) (r2 & H2 & F2). exists (r1 ++ r2).
    rewrite H2, H1, <- app_assoc. split; [done|]. by apply Forall_app.
  - intros word tf s.
    pose proof (try_candidate_inv cfg word role tf s) as H. simpl in H.
    destruct (try_candidate _ _ _ _ _ _) as [|e s'|s'|s']; [done|..].
    + destruct H as (_ & _ & _ & _ & ->). exists []. by rewrite app_nil_r.
    + destruct H as (Hf & _ & ph & Hph & Hm).
      destruct (missed_db _ _ _ _ _ _ Hm) as [->| ->].
      * exists []. by rewrite app_nil_r.
      * eexists. split; [done|]. by repeat constructor.
    + destruct H as (_ & row & rows & _ & ->). exists []. by rewrite app_nil_r.
Qed.

Lemma inserted_rows_hold_analysis_witness :
  ∃ o st',
    call run_cfg 1 "RUN" None true no_state = Some (o, st')
    ∧ ∃ rows, db st' = db no_state ++ rows
              ∧ Forall (analysis_row run_cfg None) rows.
Proof.
  eexists _, _. split.
  - vm_compute. reflexivity.
  - eapply (inserted_rows_hold_analysis run_cfg 1 "RUN" None true no_state).
    vm_compute. reflexivity.
Defined.

(** X9: with write-back off, no call changes the table. *)
Theorem read_only_store cfg n W role dt st o st' :
  db_update_on cfg = false ->
  call cfg n W role dt st = Some (o, st') ->
  db st' = db st.
Proof.
  intros Hoff.
  apply (call_invariant cfg role (λ s s', db s' = db s)).
  - done.
  - intros a b c H1 H2. by rewrite H2.
  - intros word tf s.
    pose proof (try_candidate_inv cfg word role tf s) as H. simpl in H.
    destruct (try_candidate _ _ _ _ _ _) as [|e s'|s'|s']; [done|..].
    + by destruct H as (_ & _ & _ & _ & ->).
    + destruct H as (_ & _ & ph & _ & Hm). by apply (missed_db_off _ _ _ _ _ _ Hm).
    + by destruct H as (_ & row & rows & _ & ->).
Qed.

Lemma read_only_store_witness :
  ∃ o st',
    call readonly_cfg 1 "RUN" None true no_state = Some (o, st')
    ∧ db st' = db no_state.
Proof.
  eexists _, _. split.
  - vm_compute. reflexivity.
  - eapply (read_only_store readonly_cfg 1 "RUN" None true no_state).
    + reflexivity.
    + vm_compute. reflexivity.
Defined.

(** ** Exceptions *)

Lemma lookup_loop_raise_inv cfg (self : string -> Role -> State -> option (Outcome * State))
    word role cs st e st' :
  (∀ s e' s', self word role s = Some (Raise e', s') ->
              e' = AnalyzerError
              ∧ ∃ l, espeak_phonemizer cfg l = None
                     ∧ last (analyzed_words (log s')) = Some l
                     ∧ last (queried_words (log s')) = Some l) ->
  lookup_loop cfg self word role cs None st = Some (Raise e, st') ->
  e = AnalyzerError
  ∧ ∃ l, espeak_phonemizer cfg l = None
         ∧ last (analyzed_words (log st')) = Some l
         ∧ last (queried_words (log st')) = Some l.
Proof.
  intros Hself. revert st.
  induction cs as [|tf cs IH]; intros st; simpl; [done|].
  pose proof (try_candidate_inv cfg word role tf st) as H. simpl in H.
  destruct (try_candidate _ _ _ _ _ _) as [|x s|s|s].
  - apply IH.
  - destruct H as (_ & _ & He & -> & ->). intros [= <- <-]. split; [done|].
    eexists. split; [done|]. unfold emit, query_event. cbn [log].
    rewrite !analyzed_words_app, !queried_words_app.
    cbn [analyzed_words queried_words].
    by rewrite !app_nil_r, !last_snoc.
  - apply IH.
  - apply Hself.
Qed.

Lemma call_raise_inv cfg n W role dt st e st' :
  call cfg n W role dt st = Some (Raise e, st') ->
  e = AnalyzerError
  ∧ ∃ l, espeak_phonemizer cfg l = None
         ∧ last (analyzed_words (log st')) = Some l
         ∧ last (queried_words (log st')) = Some l.
Proof.
  revert W dt st e st'.
  induction n as [|n IH]; intros W dt st e st'; [done|].
  destruct (lexicon st !! apply_casing cfg W) as [l|] eqn:Hl.
  - by rewrite (call_hit _ _ _ _ _ _ l).
  - rewrite call_miss by done. apply lookup_loop_raise_inv.
    intros s e' s'. apply IH.
Qed.

(** X10: the lookup [self.lexicon[word]] of line 137 never raises
    [KeyError]: when line 135 finds a role-map, line 127 has bound the
    word in this iteration.  And a call that ends with the analyzer's
    exception ended at line 110: the analyzer raised it for the last word
    that the call sent to the store and gave to the analyzer.  (Other
    exceptions of the program, such as one of the SELECT itself, are
    outside the runs described; see [Exn].) *)
Theorem alias_lookup_never_fails cfg n W role dt st o st' :
  call cfg n W role dt st = Some (o, st') ->
  o ≠ Raise KeyError
  ∧ (o = Raise AnalyzerError ->
     ∃ l, espeak_phonemizer cfg l = None
          ∧ last (analyzed_words (log st')) = Some l
          ∧ last (queried_words (log st')) = Some l).
Proof.
  intros Hcall. split.
  - intros ->. by apply call_raise_inv in Hcall as [? _].
  - intros ->. by apply call_raise_inv in Hcall as [_ ?].
Qed.

Lemma alias_lookup_never_fails_witness :
  ∃ o st',
    call mute_cfg 1 "run" None true no_state = Some (o, st')
    ∧ o = Raise AnalyzerError
    ∧ o ≠ Raise KeyError
    ∧ ∃ l, espeak_phonemizer mute_cfg l = None
           ∧ last (analyzed_words (log st')) = Some l
           ∧ last (queried_words (log st')) = Some l.
Proof.
  eexists _, _. split; [vm_compute; reflexivity|].
  split; [reflexivity|].
  destruct (alias_lookup_never_fails mute_cfg 1 "run" None true no_state _ _
              ltac:(vm_compute; reflexivity)) as [Hk Ha].
  split; [exact Hk|]. apply Ha. reflexivity.
Defined.

(** ** The fallback through the transforms *)

(** The loop passes the tried spellings that have no rows: each is
    queried and analyzed once (and stored, with write-back on), and the
    loop goes on with the rest in a state whose lexicon is as before. *)
Lemma lookup_loop_skip_missed cfg (self : string -> Role -> State -> option (Outcome * State))
    word role cs pre post st :
  tried word cs = pre ++ post ->
  NoDup pre ->
  (∀ x, x ∈ pre -> fetch_rows st x role = [] ∧ is_Some (espeak_phonemizer cfg x)) ->
  ∃ cs' st1 rows,
    tried word cs' = post
    ∧ lookup_loop cfg self word role cs None st
      = lookup_loop cfg self word role cs' None st1
    ∧ lexicon st1 = lexicon st ∧ heap st1 = heap st
    ∧ analyzed_words (log st1) = analyzed_words (log st) ++ pre
    ∧ queried_words (log st1) = queried_words (log st) ++ pre
    ∧ db st1 = db st ++ rows
    ∧ Forall (λ r, row_word r ∈ pre) rows.
Proof.
  revert pre st.
  induction cs as [|tf cs IH]; intros pre st Htried Hnd Hpre.
  { symmetry in Htried. apply app_eq_nil in Htried as [-> ->].
    exists [], st, []. rewrite !app_nil_r. by repeat split. }
  rewrite tried_cons in Htried.
  destruct (falsy (transformed word tf)) eqn:Hf.
  { destruct (IH pre st Htried Hnd Hpre) as (cs' & st1 & rows & H1 & H2 & H3).
    exists cs', st1, rows. split; [done|]. split; [|done].
    simpl. by rewrite try_candidate_skip. }
  destruct pre as [|x pre].
  { exists (tf :: cs), st, []. rewrite tried_cons, Hf, !app_nil_r.
    by repeat split. }
  simpl in Htried. injection Htried as <- Htried.
  apply NoDup_cons in Hnd as [Hnotin Hnd].
  destruct (Hpre (transformed word tf)) as [Hnil [ph Hph]]; [by left|].
  pose proof (try_candidate_inv cfg word role tf st) as H. simpl in H.
  simpl. destruct (try_candidate _ _ _ _ _ _) as [|e s|s|s].
  - congruence.
  - destruct H as (_ & _ & He & _). congruence.
  - destruct H as (_ & _ & ph' & _ & Hm).
    assert (∃ t, db s = db st ++ t
                 ∧ Forall (λ r, row_word r = transformed word tf) t) as (t & Ht & Ft).
    { destruct (missed_db _ _ _ _ _ _ Hm) as [->| ->].
      - exists []. by rewrite app_nil_r.
      - eexists. split; [done|]. by repeat constructor. }
    destruct (IH pre s Htried Hnd) as (cs' & st1 & rows & H1 & H2 & H3 & H4 & H5 & H6 & H7 & H8).
    { intros y Hy. rewrite (fetch_rows_app_other st s t); [apply Hpre; by right|done|].
      eapply Forall_impl; [exact Ft|]. simpl. intros r Hr E.
      apply Hnotin. by rewrite <- Hr, E. }
    exists cs', st1, (t ++ rows). split; [done|]. split; [done|].
    rewrite H3, H4, H5, H6, H7, Ht, (missed_lexicon _ _ _ _ _ _ Hm),
      (missed_heap _ _ _ _ _ _ Hm), (missed_analyzed _ _ _ _ _ _ Hm),
      (missed_queried _ _ _ _ _ _ Hm), <- !app_assoc.
    repeat split; try done. apply Forall_app. split.
    + eapply Forall_impl; [exact Ft|]. simpl. intros r ->. by left.
    + eapply Forall_impl; [exact H8|]. simpl. intros r Hr. by right.
  - destruct H as (_ & row & rows & Hrows & _). congruence.
Qed.

(** For a spelling that is not among the ones passed, the query is as it
    was. *)
Lemma fetch_rows_not_passed st st1 rows (pre : list string) l role :
  db st1 = db st ++ rows ->
  Forall (λ r, row_word r ∈ pre) rows ->
  l ∉ pre ->
  fetch_rows st1 l role = fetch_rows st l role.
Proof.
  intros Hdb Hrows Hl. apply (fetch_rows_app_other st st1 rows); [done|].
  eapply Forall_impl; [exact Hrows|]. simpl. intros r Hr E. by rewrite E in Hr.
Qed.

(** The state after a store hit on spelling [l] that followed the misses
    of the spellings [pre]. *)
Lemma call_fallback_hit cfg n W role dt st pre l post row rows :
  apply_casing cfg (apply_casing cfg W) = apply_casing cfg W ->
  lexicon st !! apply_casing cfg W = None ->
  lookup_words cfg dt (apply_casing cfg W) = pre ++ l :: post ->
  NoDup (pre ++ [l]) ->
  (∀ x, x ∈ pre -> fetch_rows st x role = [] ∧ is_Some (espeak_phonemizer cfg x)) ->
  fetch_rows st l role = row :: rows ->
  ∃ st1 st2,
    call cfg (S (S n)) W role dt st
    = Some (Return (cache_probe (merged_map (row :: rows)) role), st2)
    ∧ st2 = merged_state (apply_casing cfg W) l (row :: rows)
              (emit (query_event l role) st1)
    ∧ lexicon st1 = lexicon st ∧ heap st1 = heap st
    ∧ analyzed_words (log st1) = analyzed_words (log st) ++ pre
    ∧ queried_words (log st1) = queried_words (log st) ++ pre.
Proof.
  intros Hc Hmiss Hlw Hnd Hpre Hrows.
  apply NoDup_app in Hnd as (Hnd & Hdisj & _).
  rewrite call_miss by done.
  destruct (lookup_loop_skip_missed cfg (λ w r s, call cfg (S n) w r true s)
              (apply_casing cfg W) role (candidates cfg dt) pre (l :: post) st
              Hlw Hnd Hpre)
    as (cs' & st1 & t & Hcs' & -> & Hlex & Hheap & Han & Hq & Hdb & Ht).
  exists st1. eexists. split; [|split; [reflexivity|done]].
  erewrite lookup_loop_hit.
  - by rewrite call_merged_state.
  - by rewrite Hcs'.
  - rewrite (fetch_rows_not_passed st st1 t pre); [done..|].
    intros Hin. apply (Hdisj l Hin). by left.
Qed.

(** X4: the fallback through the transforms.  When the normalized word is
    not cached, the tried spellings [pre] have no rows (and are analyzed)
    and the next tried spelling [l] has rows, the call queries [pre] and
    then [l], in that order, does not analyze [l], merges the rows of [l]
    into one new role-map, binds both the word and [l] to that one object,
    and returns its entry for the role as the probe chooses it. *)
Theorem fallback_store_hit cfg n W role dt st pre l post row rows :
  apply_casing cfg (apply_casing cfg W) = apply_casing cfg W ->
  lexicon st !! apply_casing cfg W = None ->
  lookup_words cfg dt (apply_casing cfg W) = pre ++ l :: post ->
  NoDup (pre ++ [l]) ->
  (∀ x, x ∈ pre -> fetch_rows st x role = [] ∧ is_Some (espeak_phonemizer cfg x)) ->
  fetch_rows st l role = row :: rows ->
  ∃ p st2 loc,
    call cfg (S (S n)) W role dt st = Some (Return (Some p), st2)
    ∧ Chosen (merged_map (row :: rows)) role p
    ∧ lexicon st2 !! apply_casing cfg W = Some loc
    ∧ lexicon st2 !! l = Some loc
    ∧ heap st2 !! loc = Some (merged_map (row :: rows))
    ∧ heap st !! loc = None
    ∧ queried_words (log st2) = queried_words (log st) ++ pre ++ [l]
    ∧ analyzed_words (log st2) = analyzed_words (log st) ++ pre.
Proof.
  intros Hc Hmiss Hlw Hnd Hpre Hrows.
  destruct (call_fallback_hit cfg n W role dt st pre l post row rows
              Hc Hmiss Hlw Hnd Hpre Hrows)
    as (st1 & st2 & Hcall & -> & Hlex & Hheap & Han & Hq).
  destruct (cache_probe_nonempty (merged_map (row :: rows)) role) as [p Hp];
    [apply merged_map_nonempty|].
  exists p. eexists. exists (length (heap st)).
  rewrite Hcall, Hp. split; [done|]. split; [by apply cache_probe_Chosen|].
  rewrite merged_state_word, merged_state_lookup_word. simpl. rewrite Hheap.
  split; [done|]. split; [done|]. split; [apply lookup_snoc|].
  split; [by apply lookup_ge_None|].
  unfold query_event. rewrite queried_words_app, analyzed_words_app. simpl.
  by rewrite Hq, Han, app_nil_r, <- app_assoc.
Qed.

Lemma fallback_store_hit_witness :
  ∃ p st2 loc,
    call stem_cfg 2 "runs" None true noun_state = Some (Return (Some p), st2)
    ∧ Chosen (merged_map [(Some "noun", "x y")]) None p
    ∧ lexicon st2 !! apply_casing stem_cfg "runs" = Some loc
    ∧ lexicon st2 !! "run" = Some loc
    ∧ heap st2 !! loc = Some (merged_map [(Some "noun", "x y")])
    ∧ heap noun_state !! loc = None
    ∧ queried_words (log st2) = queried_words (log noun_state) ++ ["runs"] ++ ["run"]
    ∧ analyzed_words (log st2) = analyzed_words (log noun_state) ++ ["runs"].
Proof.
  apply (fallback_store_hit stem_cfg 0 "runs" None true noun_state
           ["runs"] "run" [] (Some "noun", "x y") []).
  - reflexivity.
  - reflexivity.
  - reflexivity.
  - vm_compute. apply NoDup_cons. split.
    + intros H. apply list_elem_of_singleton in H. discriminate.
    + apply NoDup_singleton.
  - intros x Hx. apply list_elem_of_singleton in Hx as ->.
    split; [reflexivity|]. eexists. reflexivity.
  - reflexivity.
Defined.

(** X5: after such a store hit, the transformed spelling is a cache entry
    of its own: resolving it directly (with a casing function that leaves
    it alone) or resolving the word again gives the same answer for every
    role, from the cache, in an unchanged state. *)
Theorem alias_answers_from_cache cfg n W role dt st pre l post row rows :
  apply_casing cfg (apply_casing cfg W) = apply_casing cfg W ->
  apply_casing cfg l = l ->
  lexicon st !! apply_casing cfg W = None ->
  lookup_words cfg dt (apply_casing cfg W) = pre ++ l :: post ->
  NoDup (pre ++ [l]) ->
  (∀ x, x ∈ pre -> fetch_rows st x role = [] ∧ is_Some (espeak_phonemizer cfg x)) ->
  fetch_rows st l role = row :: rows ->
  ∃ o st2,
    call cfg (S (S n)) W role dt st = Some (o, st2)
    ∧ ∀ role2 n2 dt2, ∃ p,
        call cfg (S n2) l role2 dt2 st2 = Some (Return (Some p), st2)
        ∧ call cfg (S n2) W role2 dt2 st2 = Some (Return (Some p), st2).
Proof.
  intros Hc Hcl Hmiss Hlw Hnd Hpre Hrows.
  destruct (call_fallback_hit cfg n W role dt st pre l post row rows
              Hc Hmiss Hlw Hnd Hpre Hrows)
    as (st1 & st2 & Hcall & Hst2 & _).
  exists (Return (cache_probe (merged_map (row :: rows)) role)), st2.
  split; [done|]. intros role2 n2 dt2.
  destruct (cache_probe_nonempty (merged_map (row :: rows)) role2) as [p Hp];
    [apply merged_map_nonempty|].
  exists p. subst st2.
  rewrite !(call_hit _ _ _ _ _ _ (length (heap (emit (query_event l role) st1)))).
  - by rewrite (deref_lookup _ _ _ (merged_state_heap _ _ _ _)), Hp.
  - apply merged_state_word.
  - rewrite Hcl. apply merged_state_lookup_word.
Qed.

Lemma alias_answers_from_cache_witness :
  ∃ o st2,
    call stem_cfg 2 "runs" None true noun_state = Some (o, st2)
    ∧ ∀ role2 n2 dt2, ∃ p,
        call stem_cfg (S n2) "run" role2 dt2 st2 = Some (Return (Some p), st2)
        ∧ call stem_cfg (S n2) "runs" role2 dt2 st2 = Some (Return (Some p), st2).
Proof.
  apply (alias_answers_from_cache stem_cfg 0 "runs" None true noun_state
           ["runs"] "run" [] (Some "noun", "x y") []).
  - reflexivity.
  - reflexivity.
  - reflexivity.
  - reflexivity.
  - vm_compute. apply NoDup_cons. split.
    + intros H. apply list_elem_of_singleton in H. discriminate.
    + apply NoDup_singleton.
  - intros x Hx. apply list_elem_of_singleton in Hx as ->.
    split; [reflexivity|]. eexists. reflexivity.
  - reflexivity.
Defined.

Lemma lookup_loop_raise cfg (self : string -> Role -> State -> option (Outcome * State))
    word role cs st l0 :
  head (tried word cs) = Some l0 ->
  fetch_rows st l0 role = [] ->
  espeak_phonemizer cfg l0 = None ->
  lookup_loop cfg self word role cs None st
  = Some (Raise AnalyzerError,
          emit (EvAnalyze l0) (emit (query_event l0 role) st)).
Proof.
  revert st. induction cs as [|tf cs IH]; intros st; [done|].
  rewrite tried_cons. simpl.
  destruct (falsy (transformed word tf)) eqn:Hf.
  - intros Hhd Hrows He. rewrite try_candidate_skip by done. by apply IH.
  - simpl. intros [= <-] Hrows He. rewrite try_candidate_no_rows by done.
    unfold analyze. by rewrite He.
Qed.

(** X1: a failure of the analyzer reaches the caller.  When the normalized
    word is not cached, the tried spellings [pre] have no rows and are
    analyzed, and the next tried spelling [l] has no rows and the analyzer
    raises for it, the call raises; the lexicon is as before, and no row
    was written for [l]. *)
Theorem analyzer_failure_propagates cfg n W role dt st pre l post :
  lexicon st !! apply_casing cfg W = None ->
  lookup_words cfg dt (apply_casing cfg W) = pre ++ l :: post ->
  NoDup (pre ++ [l]) ->
  (∀ x, x ∈ pre -> fetch_rows st x role = [] ∧ is_Some (espeak_phonemizer cfg x)) ->
  fetch_rows st l role = [] ->
  espeak_phonemizer cfg l = None ->
  ∃ st' rows,
    call cfg (S n) W role dt st = Some (Raise AnalyzerError, st')
    ∧ lexicon st' = lexicon st ∧ heap st' = heap st
    ∧ analyzed_words (log st') = analyzed_words (log st) ++ pre ++ [l]
    ∧ db st' = db st ++ rows
    ∧ Forall (λ r, row_word r ∈ pre) rows
    ∧ fetch_rows st' l role = [].
Proof.
  intros Hmiss Hlw Hnd Hpre Hrows He.
  apply NoDup_app in Hnd as (Hnd & Hdisj & _).
  assert (l ∉ pre) as Hl by (intros Hin; apply (Hdisj l Hin); by left).
  rewrite call_miss by done.
  destruct (lookup_loop_skip_missed cfg (λ w r s, call cfg n w r true s)
              (apply_casing cfg W) role (candidates cfg dt) pre (l :: post) st
              Hlw Hnd Hpre)
    as (cs' & st1 & t & Hcs' & -> & Hlex & Hheap & Han & Hq & Hdb & Ht).
  pose proof (fetch_rows_not_passed st st1 t pre l role Hdb Ht Hl) as Hf.
  eexists. exists t. split.
  - apply lookup_loop_raise; [by rewrite Hcs'| |done]. by rewrite Hf.
  - simpl. unfold query_event. rewrite !analyzed_words_app. simpl.
    rewrite Han, app_nil_r, <- app_assoc.
    repeat split; try done.
    rewrite <- Hrows, <- Hf. by apply fetch_rows_db.
Qed.

Lemma analyzer_failure_propagates_witness :
  ∃ st' rows,
    call mute_cfg 1 "run" None true no_state = Some (Raise AnalyzerError, st')
    ∧ lexicon st' = lexicon no_state ∧ heap st' = heap no_state
    ∧ analyzed_words (log st') = analyzed_words (log no_state) ++ [] ++ ["run"]
    ∧ db st' = db no_state ++ rows
    ∧ Forall (λ r, row_word r ∈ @nil string) rows
    ∧ fetch_rows st' "run" None = [].
Proof.
  apply (analyzer_failure_propagates mute_cfg 0 "run" None true no_state [] "run" []).
  - reflexivity.
  - reflexivity.
  - apply NoDup_singleton.
  - intros x Hx. by apply elem_of_nil in Hx.
  - reflexivity.
  - reflexivity.
Defined.

(** X3: nothing to try.  When the normalized word is not cached and every
    candidate spelling is empty (the empty word without transforms, for
    one), the call returns NotFound without a query, an analyzer call or
    any change of state. *)
Theorem nothing_to_try cfg n W role dt st :
  lexicon st !! apply_casing cfg W = None ->
  lookup_words cfg dt (apply_casing cfg W) = [] ->
  call cfg (S n) W role dt st = Some (Return None, st).
Proof.
  intros Hmiss Hlw. rewrite call_miss by done.
  by apply lookup_loop_none_tried.
Qed.

Lemma nothing_to_try_witness :
  call plain_cfg 1 EmptyString (Some "noun") true no_state
  = Some (Return None, no_state).
Proof.
  apply (nothing_to_try plain_cfg 0 EmptyString (Some "noun") true no_state).
  - reflexivity.
  - reflexivity.
Defined.

(** ** The merge of the rows *)

Lemma dict_get_add k k' v d :
  dict_get k (dict_add k' v d)
  = match dict_get k d with
    | Some p => Some p
    | None => if decide (k = k') then Some v else None
    end.
Proof.
  unfold dict_add. induction d as [|[k0 v0] d IH]; simpl; [done|].
  destruct (decide (k = k0)); [done|apply IH].
Qed.

Lemma first_of_role_cons k row rows :
  first_of_role k (row :: rows)
  = if decide (row.1 = k) then Some row.2 else first_of_role k rows.
Proof.
  unfold first_of_role. rewrite filter_cons.
  by destruct (decide (row.1 = k)).
Qed.

Lemma dict_get_foldl_merge_step k rows d :
  dict_get k (foldl merge_step d rows)
  = match dict_get k d with
    | Some p => Some p
    | None => split <$> first_of_role k rows
    end.
Proof.
  revert d. induction rows as [|row rows IH]; intros d; simpl.
  - by destruct (dict_get k d).
  - rewrite IH, first_of_role_cons. unfold merge_step, dict_mem.
    destruct (dict_get row.1 d) as [q|] eqn:Hrow.
    + destruct (dict_get k d) eqn:Hk; [done|].
      destruct (decide (row.1 = k)) as [E|]; [|done]. rewrite E in Hrow. congruence.
    + rewrite dict_get_add. destruct (dict_get k d) eqn:Hk; [done|].
      destruct (decide (k = row.1)) as [E1|N1], (decide (row.1 = k)) as [E2|N2];
        try done; congruence.
Qed.

Lemma merge_step_keys d row :
  NoDup d.*1 -> NoDup (merge_step d row).*1.
Proof.
  intros Hnd. unfold merge_step, dict_mem, dict_add.
  destruct (dict_get row.1 d) eqn:Hget; [done|].
  rewrite fmap_app. apply NoDup_app. split; [done|].
  split; [|apply NoDup_singleton].
  intros k Hk Hk'. apply list_elem_of_singleton in Hk'. subst k.
  clear Hnd. induction d as [|[k0 v0] d IH]; [by apply elem_of_nil in Hk|].
  simpl in *. destruct (decide (row.1 = k0)); [done|].
  apply elem_of_cons in Hk as [?|Hk]; [done|]. by apply IH.
Qed.

Lemma merged_map_keys rows : NoDup (merged_map rows).*1.
Proof.
  unfold merged_map. generalize (NoDup_nil_2 (A := Role)).
  change (@nil Role) with ((@nil (Role * PHONEMES_TYPE)).*1).
  generalize (@nil (Role * PHONEMES_TYPE)).
  induction rows as [|row rows IH]; intros d Hd; simpl; [done|].
  by apply IH, merge_step_keys.
Qed.

(** X6: the loop over the rows of a query, started without a role-map,
    creates one object, binds it to the word, and fills it so that each
    role occurs once and has the split phonemes of the first row of that
    role: later rows of a role are ignored. *)
Theorem first_row_of_role_wins word row rows st :
  ∃ loc st' d,
    merge_rows word (row :: rows) None st = (Some loc, st')
    ∧ lexicon st' !! word = Some loc
    ∧ heap st' !! loc = Some d
    ∧ heap st !! loc = None
    ∧ NoDup d.*1
    ∧ ∀ k, dict_get k d = split <$> first_of_role k (row :: rows).
Proof.
  rewrite merge_rows_None. eexists _, _, _. split; [done|]. simpl.
  rewrite lookup_insert_eq, lookup_snoc. split; [done|]. split; [done|].
  split; [by apply lookup_ge_None|]. split; [apply merged_map_keys|].
  intros k. unfold merged_map. by rewrite dict_get_foldl_merge_step.
Qed.

Lemma foldl_merge_step_head rows d x :
  head d = Some x -> head (foldl merge_step d rows) = Some x.
Proof.
  revert d. induction rows as [|r rows IH]; intros d Hd; simpl; [done|].
  apply IH. unfold merge_step, dict_add. destruct (dict_mem _ _); [done|].
  by destruct d.
Qed.

Lemma merged_map_head row rows :
  head (merged_map (row :: rows)) = Some (row.1, split row.2).
Proof. unfold merged_map. simpl. by apply foldl_merge_step_head. Qed.

(** ** The order of the rows *)

Lemma order_by_pron_order_head l r0 rest :
  order_by_pron_order l = r0 :: rest ->
  r0 ∈ l ∧ ∀ r, r ∈ l -> (row_pron_order r0 ≤ row_pron_order r)%Z.
Proof.
  revert r0 rest. induction l as [|x l IH]; intros r0 rest; simpl; [done|].
  destruct (order_by_pron_order l) as [|y ys] eqn:Hs; simpl.
  - apply order_by_pron_order_nil in Hs as ->. intros [= <- <-].
    split; [by left|]. intros r Hr. apply list_elem_of_singleton in Hr as ->. lia.
  - destruct (IH y ys eq_refl) as [Hy Hmin].
    destruct (row_pron_order y <? row_pron_order x)%Z eqn:Hlt.
    + intros [= <- <-]. apply Z.ltb_lt in Hlt. split; [by right|].
      intros r Hr. apply elem_of_cons in Hr as [->|Hr]; [lia|]. by apply Hmin.
    + intros [= <- <-]. apply Z.ltb_ge in Hlt. split; [by left|].
      intros r Hr. apply elem_of_cons in Hr as [->|Hr]; [lia|].
      specialize (Hmin r Hr). lia.
Qed.

(** Rows of equal [pron_order] come out in the order of the table. *)
Lemma order_by_pron_order_ties l z :
  Forall (λ r, row_pron_order r = z) l -> order_by_pron_order l = l.
Proof.
  induction 1 as [|x l Hx Hl IH]; simpl; [done|].
  rewrite IH. destruct Hl as [|y l Hy Hl]; simpl; [done|].
  rewrite Hx, Hy, Z.ltb_irrefl. done.
Qed.

Lemma first_of_role_absent k rows :
  Forall (λ row, row.1 ≠ k) rows -> first_of_role k rows = None.
Proof.
  induction 1 as [|row rows Hrow _ IH]; [done|].
  rewrite first_of_role_cons. by destruct (decide (row.1 = k)).
Qed.

Lemma lookup_words_cons cfg dt word :
  falsy word = false ->
  lookup_words cfg dt word
  = word :: tried word (Some <$> (if dt then word_transform_funcs cfg else [])).
Proof.
  intros Hf. unfold lookup_words, candidates. rewrite tried_cons. simpl.
  by rewrite Hf.
Qed.

(** The store hit on the normalized word itself. *)
Lemma call_direct_hit cfg n W role dt st row rows :
  apply_casing cfg (apply_casing cfg W) = apply_casing cfg W ->
  falsy (apply_casing cfg W) = false ->
  lexicon st !! apply_casing cfg W = None ->
  fetch_rows st (apply_casing cfg W) role = row :: rows ->
  call cfg (S (S n)) W role dt st
  = Some (Return (cache_probe (merged_map (row :: rows)) role),
          merged_state (apply_casing cfg W) (apply_casing cfg W) (row :: rows)
            (emit (query_event (apply_casing cfg W) role) st)).
Proof.
  intros Hc Hf Hmiss Hrows. rewrite call_miss by done.
  erewrite lookup_loop_hit; [|by apply lookup_words_head|done].
  by rewrite call_merged_state.
Qed.

(** X7: the lowest [pron_order] wins.  For a non-empty normalized word
    that is not cached and has rows in the store, none of them with the
    default role, a call without a role returns the split phonemes of a
    row of the word whose [pron_order] is the least. *)
Theorem lowest_pron_order_wins cfg n W dt st r1 :
  apply_casing cfg (apply_casing cfg W) = apply_casing cfg W ->
  falsy (apply_casing cfg W) = false ->
  lexicon st !! apply_casing cfg W = None ->
  r1 ∈ db st -> row_word r1 = apply_casing cfg W ->
  (∀ r, r ∈ db st -> row_word r = apply_casing cfg W ->
        row_role r ≠ Some DEFAULT_ROLE) ->
  ∃ r0 st',
    r0 ∈ db st ∧ row_word r0 = apply_casing cfg W
    ∧ (∀ r, r ∈ db st -> row_word r = apply_casing cfg W ->
            (row_pron_order r0 ≤ row_pron_order r)%Z)
    ∧ call cfg (S (S n)) W None dt st
      = Some (Return (Some (split (row_phonemes r0))), st').
Proof.
  intros Hc Hf Hmiss Hr1 Hw1 Hnodef.
  set (w := apply_casing cfg W) in *.
  assert (r1 ∈ filter (λ r, row_word r = w) (db st)) as Hin
    by (by apply list_elem_of_filter).
  destruct (order_by_pron_order (filter (λ r, row_word r = w) (db st)))
    as [|r0 rest] eqn:Hsorted.
  { apply order_by_pron_order_nil in Hsorted. rewrite Hsorted in Hin.
    by apply elem_of_nil in Hin. }
  destruct (order_by_pron_order_head _ _ _ Hsorted) as [Hr0 Hmin].
  apply list_elem_of_filter in Hr0 as [Hw0 Hr0].
  assert (fetch_rows st w None = columns r0 :: (columns <$> rest)) as Hrows.
  { unfold fetch_rows, select_word. by rewrite Hsorted. }
  exists r0. eexists. split; [done|]. split; [done|]. split.
  { intros r Hr Hw. apply Hmin. by apply list_elem_of_filter. }
  subst w. rewrite (call_direct_hit cfg n W None dt st _ _ Hc Hf Hmiss Hrows).
  do 2 f_equal. unfold cache_probe.
  assert (dict_get (Some DEFAULT_ROLE) (merged_map (columns r0 :: (columns <$> rest)))
          = None) as ->.
  { unfold merged_map. rewrite dict_get_foldl_merge_step. simpl.
    rewrite first_of_role_absent; [done|].
    rewrite <- Hrows. unfold fetch_rows.
    apply select_word_Forall, Forall_forall. intros r Hr Hw. simpl. by apply Hnodef. }
  pose proof (merged_map_head (columns r0) (columns <$> rest)) as Hhd.
  destruct (merged_map _) as [|[k p] d]; [done|]. simpl in Hhd. by injection Hhd as _ ->.
Qed.

Lemma lowest_pron_order_wins_witness :
  ∃ r0 st',
    r0 ∈ db two_rows_state ∧ row_word r0 = apply_casing plain_cfg "run"
    ∧ (∀ r, r ∈ db two_rows_state -> row_word r = apply_casing plain_cfg "run" ->
            (row_pron_order r0 ≤ row_pron_order r)%Z)
    ∧ call plain_cfg 2 "run" None true two_rows_state
      = Some (Return (Some (split (row_phonemes r0))), st').
Proof.
  apply (lowest_pron_order_wins plain_cfg 0 "run" true two_rows_state
           (mkRow 1 "run" 5 "r A n" (Some "noun"))).
  - reflexivity.
  - reflexivity.
  - reflexivity.
  - by left.
  - reflexivity.
  - intros r Hr _.
    apply elem_of_cons in Hr as [->|Hr]; [discriminate|].
    apply list_elem_of_singleton in Hr as ->. discriminate.
Defined.

(** ** A query with a role *)

Lemma foldl_merge_step_same_role k p rows :
  Forall (λ row : Role * string, row.1 = k) rows ->
  foldl merge_step [(k, p)] rows = [(k, p)].
Proof.
  induction 1 as [|row rows Hrow _ IH]; simpl; [done|].
  unfold merge_step at 2, dict_mem. simpl. rewrite Hrow.
  by rewrite decide_True.
Qed.

Lemma cache_probe_only_entry k p role : cache_probe [(k, p)] role = Some p.
Proof.
  unfold cache_probe. destruct role as [r|]; simpl; repeat case_decide; done.
Qed.

(** X11: a role-map cached from a query with a role holds that role only,
    and it answers every later call.  For a non-empty normalized word that
    is not cached, a call with a non-empty role whose query returns rows
    returns the split phonemes of the first row, and afterwards every call
    for the word, with any role, returns that same sequence from the cache
    without touching the store. *)
Theorem role_query_answer_sticks cfg n W r dt st k ph rest :
  apply_casing cfg (apply_casing cfg W) = apply_casing cfg W ->
  falsy (apply_casing cfg W) = false ->
  falsy r = false ->
  lexicon st !! apply_casing cfg W = None ->
  fetch_rows st (apply_casing cfg W) (Some r) = (k, ph) :: rest ->
  ∃ st',
    call cfg (S (S n)) W (Some r) dt st = Some (Return (Some (split ph)), st')
    ∧ ∀ role2 n2 dt2,
        call cfg (S n2) W role2 dt2 st' = Some (Return (Some (split ph)), st').
Proof.
  intros Hc Hf Hr Hmiss Hrows.
  assert (Forall (λ row : Role * string, row.1 = Some r) ((k, ph) :: rest)) as Hall.
  { rewrite <- Hrows. unfold fetch_rows. rewrite Hr.
    apply select_word_role_Forall, Forall_forall. intros x _ _ H. exact H. }
  apply Forall_cons in Hall as [Hk Hall]. simpl in Hk. subst k.
  assert (merged_map ((Some r, ph) :: rest) = [(Some r, split ph)]) as Hmap.
  { unfold merged_map. simpl. by apply foldl_merge_step_same_role. }
  eexists. rewrite (call_direct_hit cfg n W (Some r) dt st _ _ Hc Hf Hmiss Hrows).
  unfold Role in *. rewrite Hmap, cache_probe_only_entry. split; [done|].
  intros role2 n2 dt2.
  erewrite call_hit; [|apply merged_state_word].
  by rewrite (deref_lookup _ _ _ (merged_state_heap _ _ _ _)), Hmap,
    cache_probe_only_entry.
Qed.

Lemma role_query_answer_sticks_witness :
  ∃ st',
    call plain_cfg 2 "run" (Some "noun") true noun_state
    = Some (Return (Some (split "x y")), st')
    ∧ ∀ role2 n2 dt2,
        call plain_cfg (S n2) "run" role2 dt2 st'
        = Some (Return (Some (split "x y")), st').
Proof.
  apply (role_query_answer_sticks plain_cfg 0 "run" "noun" true noun_state
           (Some "noun") "x y" []).
  - reflexivity.
  - reflexivity.
  - reflexivity.
  - reflexivity.
  - reflexivity.
Defined.

(** ** The symbols of a pronunciation *)

Lemma no_space_app s1 s2 :
  no_space (s1 +:+ s2) = no_space s1 && no_space s2.
Proof.
  induction s1 as [|c s1 IH]; simpl; [done|].
  rewrite IH. by destruct (is_space c).
Qed.

Lemma space_len_zero c s : space_len (String c s) = 0 -> is_space c = false.
Proof. unfold space_len. by destruct (is_space c). Qed.

Lemma split_from_ok s cur skip :
  (∀ w, cur = Some w -> symbol_ok w) ->
  Forall symbol_ok (split_from cur skip s).
Proof.
  revert cur skip. induction s as [|c s IH]; intros cur skip Hcur.
  - simpl. destruct cur as [w|]; [|constructor]. repeat constructor; by apply Hcur.
  - cbn [split_from]. destruct skip as [|k]; [|by apply IH].
    destruct (space_len (String c s)) as [|k] eqn:Hlen.
    + apply space_len_zero in Hlen. apply IH. intros w [= <-]. split.
      * destruct cur as [[|? ?]|]; done.
      * rewrite no_space_app. simpl. rewrite Hlen. simpl.
        destruct cur as [w|]; simpl; [|done].
        destruct (Hcur w eq_refl) as [_ ->]. done.
    + destruct cur as [w|]; [constructor; [by apply Hcur|]|]; by apply IH.
Qed.

(** [str.split()] yields no empty symbol and no symbol with whitespace. *)
Lemma split_ok s : Forall symbol_ok (split s).
Proof. apply split_from_ok. done. Qed.

Lemma merged_map_ok rows :
  Forall (λ e : Role * PHONEMES_TYPE, Forall symbol_ok e.2) (merged_map rows).
Proof.
  unfold merged_map.
  assert (Forall (λ e : Role * PHONEMES_TYPE, Forall symbol_ok e.2) []) as Hd
    by constructor.
  revert Hd. generalize (@nil (Role * PHONEMES_TYPE)).
  induction rows as [|row rows IH]; intros d Hd; simpl; [done|].
  apply IH. unfold merge_step, dict_add. destruct (dict_mem _ _); [done|].
  apply Forall_app. split; [done|]. repeat constructor. apply split_ok.
Qed.

Lemma dict_get_elem k d p : dict_get k d = Some p -> (k, p) ∈ d.
Proof.
  induction d as [|[k' v] d IH]; simpl; [done|].
  destruct (decide (k = k')) as [->|].
  - intros [= ->]. by left.
  - intros H. right. by apply IH.
Qed.

Lemma cache_probe_elem d role p :
  cache_probe d role = Some p -> ∃ k, (k, p) ∈ d.
Proof.
  intros H. apply cache_probe_Chosen in H.
  destruct H as [r _ H|_ H|k rest _ _ ->].
  - eexists. by apply dict_get_elem.
  - eexists. by apply dict_get_elem.
  - exists k. by left.
Qed.

Lemma heap_ok_probe st l role p :
  heap_ok st -> cache_probe (deref st l) role = Some p -> Forall symbol_ok p.
Proof.
  intros Hok Hp. apply cache_probe_elem in Hp as [k Hk].
  unfold deref in Hk. destruct (heap st !! l) as [d|] eqn:Hd; simpl in Hk.
  - apply list_elem_of_lookup_2 in Hd.
    unfold heap_ok in Hok. rewrite Forall_forall in Hok.
    specialize (Hok d Hd). rewrite Forall_forall in Hok. by apply (Hok (k, p)).
  - by apply elem_of_nil in Hk.
Qed.

Lemma try_candidate_heap_ok cfg word role tf st :
  heap_ok st ->
  match try_candidate cfg word role tf None st with
  | Skipped => True
  | Raised _ st' | Missed st' | Merged st' => heap_ok st'
  end.
Proof.
  intros Hok.
  pose proof (try_candidate_inv cfg word role tf st) as H. simpl in H.
  destruct (try_candidate _ _ _ _ _ _) as [|e st'|st'|st']; [done|..].
  - by destruct H as (_ & _ & _ & _ & ->).
  - destruct H as (_ & _ & ph & _ & Hm). unfold heap_ok.
    by rewrite (missed_heap _ _ _ _ _ _ Hm).
  - destruct H as (_ & row & rows & _ & ->). unfold heap_ok. simpl.
    apply Forall_app. split; [done|]. repeat constructor. apply merged_map_ok.
Qed.

(** X12: pronunciations are made of proper symbols.  If every phoneme
    sequence cached before a call consists of symbols that are not empty
    and hold no whitespace (as in an empty lexicon), then so does every
    sequence cached after it, and so does the sequence the call returns:
    what comes from the store went through [str.split()]. *)
Theorem returned_symbols_are_proper cfg n W role dt st o st' :
  heap_ok st ->
  call cfg n W role dt st = Some (o, st') ->
  heap_ok st' ∧ ∀ p, o = Return (Some p) -> Forall symbol_ok p.
Proof.
  revert W dt st o st'.
  induction n as [|n IH]; intros W dt st o st' Hok; [done|].
  destruct (lexicon st !! apply_casing cfg W) as [l|] eqn:Hl.
  - rewrite (call_hit _ _ _ _ _ _ l) by done. intros [= <- <-].
    split; [done|]. intros p [= Hp]. by eapply heap_ok_probe.
  - rewrite call_miss by done.
    generalize (candidates cfg dt). intros cs. clear Hl. revert st Hok.
    induction cs as [|tf cs IHcs]; intros st Hok; simpl.
    + intros [= <- <-]. split; [done|]. by intros p [= ].
    + pose proof (try_candidate_heap_ok cfg (apply_casing cfg W) role tf st Hok) as H.
      destruct (try_candidate _ _ _ _ _ _) as [|e s|s|s].
      * by apply IHcs.
      * intros [= <- <-]. split; [done|]. by intros p [= ].
      * by apply IHcs.
      * by apply IH.
Qed.

Lemma returned_symbols_are_proper_witness :
  ∃ o st',
    call plain_cfg 2 "run" None true noun_state = Some (o, st')
    ∧ heap_ok st' ∧ ∀ p, o = Return (Some p) -> Forall symbol_ok p.
Proof.
  eexists _, _. split.
  - vm_compute. reflexivity.
  - eapply (returned_symbols_are_proper plain_cfg 2 "run" None true noun_state).
    + constructor.
    + vm_compute. reflexivity.
Defined.

(** ** The order of the queries *)

(** X2: the order of the transform chain is respected.  With a casing
    function that is idempotent on the word, the words a call sends to the
    store are an initial part of the list of tried spellings: the
    normalized word first, then the results of the transforms in their
    order, empty results skipped (a spelling that two candidates yield
    stands twice in that list, and can be queried twice); and the words it
    gives to the analyzer are an initial part of the words it queried. *)
Theorem queries_follow_the_chain cfg n W role dt st o st' :
  apply_casing cfg (apply_casing cfg W) = apply_casing cfg W ->
  call cfg n W role dt st = Some (o, st') ->
  ∃ qs ws,
    queried_words (log st') = queried_words (log st) ++ qs
    ∧ qs `prefix_of` lookup_words cfg dt (apply_casing cfg W)
    ∧ analyzed_words (log st') = analyzed_words (log st) ++ ws
    ∧ ws `prefix_of` qs.
Proof.
  intros Hc. destruct n as [|n]; [done|].
  destruct (lexicon st !! apply_casing cfg W) as [l|] eqn:Hl.
  - rewrite (call_hit _ _ _ _ _ _ l) by done. intros [= <- <-].
    exists [], []. rewrite !app_nil_r. repeat split; try done; apply prefix_nil.
  - rewrite call_miss by done. by apply lookup_loop_queries.
Qed.

Lemma queries_follow_the_chain_witness :
  ∃ o st',
    call stem_cfg 2 "runs" None true noun_state = Some (o, st')
    ∧ ∃ qs ws,
        queried_words (log st') = queried_words (log noun_state) ++ qs
        ∧ qs `prefix_of` lookup_words stem_cfg true (apply_casing stem_cfg "runs")
        ∧ analyzed_words (log st') = analyzed_words (log noun_state) ++ ws
        ∧ ws `prefix_of` qs.
Proof.
  eexists _, _. split.
  - vm_compute. reflexivity.
  - eapply (queries_follow_the_chain stem_cfg 2 "runs" None true noun_state).
    + reflexivity.
    + vm_compute. reflexivity.
Defined.

(** ** NotFound is not remembered *)

Lemma lookup_loop_not_found_heap cfg n word role cs st st1 :
  apply_casing cfg word = word ->
  lookup_loop cfg (λ w r s, call cfg n w r true s) word role cs None st
  = Some (Return None, st1) ->
  heap st1 = heap st.
Proof.
  intros Hc. revert st.
  induction cs as [|tf cs IH]; intros st; simpl.
  { by intros [= <-]. }
  pose proof (try_candidate_inv cfg word role tf st) as H. simpl in H.
  destruct (try_candidate _ _ _ _ _ _) as [|e s|s|s].
  - apply IH.
  - done.
  - destruct H as (_ & _ & ph & _ & Hm). intros Hloop.
    apply IH in Hloop. by rewrite Hloop, (missed_heap _ _ _ _ _ _ Hm).
  - destruct H as (_ & row & rows & _ & ->).
    destruct n as [|n]; [done|]. rewrite call_merged_state by done.
    destruct (cache_probe_nonempty (merged_map (row :: rows)) role) as [p Hp];
      [apply merged_map_nonempty|].
    rewrite Hp. done.
Qed.

(** X13: a miss is not memoized.  With a casing function that is
    idempotent on the word, a call that returns NotFound leaves the
    lexicon and every role-map as they were: a word that was not cached
    is still not cached, and the next call for it goes to the store
    again. *)
Theorem not_found_is_not_cached cfg n W role dt st st' :
  apply_casing cfg (apply_casing cfg W) = apply_casing cfg W ->
  call cfg n W role dt st = Some (Return None, st') ->
  lexicon st' = lexicon st ∧ heap st' = heap st.
Proof.
  intros Hc. destruct n as [|n]; [done|].
  destruct (lexicon st !! apply_casing cfg W) as [l|] eqn:Hl.
  - rewrite (call_hit _ _ _ _ _ _ l) by done. by intros [= _ <-].
  - rewrite call_miss by done. intros Hloop. split.
    + by apply lookup_loop_not_found_inv in Hloop as [? _].
    + by eapply lookup_loop_not_found_heap.
Qed.

Lemma not_found_is_not_cached_witness :
  ∃ st',
    call run_cfg 1 "RUN" None true no_state = Some (Return None, st')
    ∧ lexicon st' = lexicon no_state ∧ heap st' = heap no_state.
Proof.
  eexists. split.
  - vm_compute. reflexivity.
  - eapply (not_found_is_not_cached run_cfg 1 "RUN" None true no_state).
    + reflexivity.
    + vm_compute. reflexivity.
Defined.

(** ** Termination *)

(** X15: with a casing function that is idempotent on the word, the method
    ends, by [return] or by [raise], within two nested activations, and
    deeper recursion limits give the same result. *)
Theorem ends_within_two_activations cfg W role dt st :
  apply_casing cfg (apply_casing cfg W) = apply_casing cfg W ->
  ∃ o st', ∀ n, call cfg (S (S n)) W role dt st = Some (o, st').
Proof.
  intros Hc. destruct (call_returns cfg 0 W role dt st Hc) as [[o st'] H].
  exists o, st'. intros n. apply (call_mono cfg 2); [lia|done].
Qed.

Lemma ends_within_two_activations_witness :
  ∃ o st', ∀ n, call run_cfg (S (S n)) "RUN" None true no_state = Some (o, st').
Proof.
  apply (ends_within_two_activations run_cfg "RUN" None true no_state).
  reflexivity.
Defined.

(** ** Roles in the store *)

(** A call without transforms for a word that has no rows for the role:
    one analysis, one row. *)
Lemma call_single_miss cfg n W role st ph :
  lexicon st !! apply_casing cfg W = None ->
  falsy (apply_casing cfg W) = false ->
  fetch_rows st (apply_casing cfg W) role = [] ->
  espeak_phonemizer cfg (apply_casing cfg W) = Some ph ->
  db_update_on cfg = true ->
  write_result cfg (attempts st) ≠ RaisedNoRow ->
  ∃ st1,
    call cfg (S n) W role false st = Some (Return None, st1)
    ∧ lexicon st1 = lexicon st
    ∧ db st1 = db st ++ [new_row (db st) (apply_casing cfg W) ph role]
    ∧ analyzed_words (log st1) = analyzed_words (log st) ++ [apply_casing cfg W]
    ∧ attempts st ≤ attempts st1.
Proof.
  intros Hmiss Hf Hnil Hph Hon Hw. rewrite call_miss by done.
  unfold candidates. simpl.
  pose proof (try_candidate_inv cfg (apply_casing cfg W) role None st) as H.
  simpl in H.
  destruct (try_candidate _ _ _ _ _ _) as [|e s|s|s].
  - congruence.
  - destruct H as (_ & _ & He & _). congruence.
  - destruct H as (_ & _ & ph' & Hph' & Hm).
    assert (ph' = ph) as -> by congruence.
    exists s. split; [done|]. split; [apply Hm|]. split; [by apply Hm|].
    split; apply Hm.
  - destruct H as (_ & row & rows & Hrows & _). congruence.
Qed.

(** X16: the store keeps one analysis per role.  For a non-empty
    normalized word without any row, a call without a role (and without
    transforms) stores the analysis with a NULL role and [pron_order] 0; a
    following call with a non-empty role does not see that row: it runs
    the analyzer again and stores the same phonemes once more, under the
    role and with [pron_order] 1.  Both calls return NotFound. *)
Theorem roles_are_stored_apart cfg n W r st ph :
  lexicon st !! apply_casing cfg W = None ->
  falsy (apply_casing cfg W) = false ->
  falsy r = false ->
  select_word (db st) (apply_casing cfg W) = [] ->
  espeak_phonemizer cfg (apply_casing cfg W) = Some ph ->
  db_update_on cfg = true ->
  (∀ k, write_result cfg k ≠ RaisedNoRow) ->
  ∃ st1 st2 i1 i2,
    call cfg (S n) W None false st = Some (Return None, st1)
    ∧ call cfg (S n) W (Some r) false st1 = Some (Return None, st2)
    ∧ db st2 = db st ++ [mkRow i1 (apply_casing cfg W) 0 ph None;
                         mkRow i2 (apply_casing cfg W) 1 ph (Some r)]
    ∧ analyzed_words (log st2)
      = analyzed_words (log st) ++ [apply_casing cfg W; apply_casing cfg W].
Proof.
  intros Hmiss Hf Hr Hnil Hph Hon Hw.
  set (w := apply_casing cfg W) in *.
  pose proof Hnil as Hfilter. apply select_word_nil in Hfilter.
  destruct (call_single_miss cfg n W None st ph Hmiss Hf Hnil Hph Hon (Hw _))
    as (st1 & Hc1 & Hl1 & Hd1 & Ha1 & _).
  fold w in Hd1, Ha1.
  assert (filter (λ x, row_word x = w ∧ row_role x = Some r) (db st) = []) as Hwr.
  { apply filter_nil_Forall in Hfilter. clear -Hfilter.
    induction Hfilter as [|x l Hx _ IH]; [done|].
    rewrite filter_cons. destruct (decide _) as [[? _]|]; [done|apply IH]. }
  destruct (call_single_miss cfg n W (Some r) st1 ph) as (st2 & Hc2 & _ & Hd2 & Ha2 & _);
    try done.
  { by rewrite Hl1. }
  { unfold fetch_rows. rewrite Hr. apply select_word_role_nil. fold w.
    rewrite Hd1, filter_app, Hwr, filter_cons. simpl.
    destruct (decide _) as [[_ ?]|]; done. }
  fold w in Hd2, Ha2.
  exists st1, st2. eexists _, _. split; [done|]. split; [done|].
  rewrite Ha2, Ha1, <- app_assoc. split; [|done].
  subst w.
  assert (next_pron_order (db st) (apply_casing cfg W) = 0%Z) as Hp0.
  { unfold next_pron_order. by rewrite Hfilter. }
  assert (next_pron_order
            (db st ++ [new_row (db st) (apply_casing cfg W) ph None])
            (apply_casing cfg W) = 1%Z) as Hp1.
  { unfold next_pron_order at 1.
    rewrite filter_app, Hfilter, filter_cons, decide_True by done.
    simpl. by rewrite Hp0. }
  rewrite Hd2, Hd1, <- app_assoc. simpl. f_equal. f_equal.
  - unfold new_row. rewrite Hp0. reflexivity.
  - f_equal. unfold new_row at 1. rewrite Hp1. reflexivity.
Qed.

Lemma roles_are_stored_apart_witness :
  ∃ st1 st2 i1 i2,
    call plain_cfg 1 "run" None false no_state = Some (Return None, st1)
    ∧ call plain_cfg 1 "run" (Some "verb") false st1 = Some (Return None, st2)
    ∧ db st2 = db no_state
               ++ [mkRow i1 (apply_casing plain_cfg "run") 0 "r V n" None;
                   mkRow i2 (apply_casing plain_cfg "run") 1 "r V n" (Some "verb")]
    ∧ analyzed_words (log st2)
      = analyzed_words (log no_state)
        ++ [apply_casing plain_cfg "run"; apply_casing plain_cfg "run"].
Proof.
  apply (roles_are_stored_apart plain_cfg 0 "run" "verb" no_state "r V n").
  - reflexivity.
  - reflexivity.
  - reflexivity.
  - reflexivity.
  - reflexivity.
  - reflexivity.
  - intros k. discriminate.
Defined.

(** ** The store at its corners *)

(** [str.split()] cuts at the no-break space too: the stored string
    "r<U+00A0>V n" is returned as three symbols. *)
Lemma split_cuts_at_nbsp :
  split ("r" ++ nbsp ++ "V n")%string = ["r"; "V"; "n"]
  ∧ ∃ st', call plain_cfg 2 "run" None true nbsp_state
           = Some (Return (Some ["r"; "V"; "n"]), st').
Proof.
  split; [reflexivity|]. eexists. vm_compute. reflexivity.
Qed.

(** Rows of equal [pron_order] are answered in table order: the first
    inserted row of "run" is the first entry of the role-map, and the one
    returned. *)
Lemma ties_answered_in_table_order :
  select_word (db tie_state) "run" = [(Some "noun", "a"); (Some "verb", "b")]
  ∧ ∃ st', call plain_cfg 2 "run" None true tie_state
           = Some (Return (Some ["a"]), st').
Proof.
  split; [reflexivity|]. eexists. vm_compute. reflexivity.
Qed.

(** Past the greatest INTEGER the per-word order repeats: two calls for
    "run" with roles that the store does not hold insert two rows with the
    same [pron_order], so the pairs of word and [pron_order] are no longer
    distinct. *)
Lemma pron_order_repeats_past_int64 :
  NoDup (word_order <$> db last_order_state)
  ∧ ∃ st1 st2 i1 i2,
      call plain_cfg 1 "run" (Some "verb") true last_order_state
      = Some (Return None, st1)
      ∧ call plain_cfg 1 "run" (Some "adj") true st1 = Some (Return None, st2)
      ∧ db st2 = db last_order_state
                 ++ [mkRow i1 "run" (INT64_MAX + 1) "r V n" (Some "verb");
                     mkRow i2 "run" (INT64_MAX + 1) "r V n" (Some "adj")]
      ∧ ¬ NoDup (word_order <$> db st2).
Proof.
  split; [apply NoDup_singleton|].
  eexists _, _, _, _. split; [vm_compute; reflexivity|].
  split; [vm_compute; reflexivity|]. split; [reflexivity|].
  intros Hnd. simpl in Hnd.
  apply NoDup_cons in Hnd as [_ Hnd]. apply NoDup_cons in Hnd as [Hnotin _].
  apply Hnotin. by left.
Qed.

(** A spelling that two candidates yield is queried twice. *)
Lemma same_spelling_queried_twice :
  lookup_words echo_cfg true (apply_casing echo_cfg "run") = ["run"; "run"]
  ∧ ∃ st', call echo_cfg 1 "run" None true no_state = Some (Return None, st')
           ∧ queried_words (log st') = ["run"; "run"].
Proof.
  split; [reflexivity|]. eexists. split; [vm_compute; reflexivity|]. reflexivity.
Qed.
